(** * Pinhole camera model (vi_utils/cam_min.h): embedding and properties

    The C++ class [vi_utils::PinholeCam] is embedded as a record of its
    private fields; every member function becomes a function on that record.
    A [double] is an IEEE-754 binary64 value ([spec_float] with precision 53
    and maximal exponent 1024), so comparisons with NaN and the infinities
    behave as they do in the compiled code.  A glog [CHECK] that fails
    terminates the program: such calls return [None]. *)

From Stdlib Require Import ZArith Lia Bool.
From Stdlib Require Import Floats.SpecFloat.
From stdpp Require Import base option list.

Set Default Proof Using "Type".

(** ** IEEE-754 binary64 *)

Module Double.

Definition prec : Z := 53.
Definition emax : Z := 1024.

Definition double : Type := spec_float.

Definition lt (a b : double) : bool := SFltb a b.
Definition le (a b : double) : bool := SFleb a b.
Definition gt (a b : double) : bool := lt b a.
Definition ge (a b : double) : bool := le b a.

Definition mul : double -> double -> double := SFmul prec emax.
Definition add : double -> double -> double := SFadd prec emax.
Definition sub : double -> double -> double := SFsub prec emax.
Definition div : double -> double -> double := SFdiv prec emax.
Definition sqrt : double -> double := SFsqrt prec emax.

(** [static_cast<double>(n)] for an [int] n, and the usual arithmetic
    conversion of an [int] operand. *)
Definition of_int (n : Z) : double := binary_normalize prec emax n 0 false.

Definition zero : double := S754_zero false.
Definition one : double := of_int 1.
Definition minus_one : double := of_int (-1).
Definition infinity : double := S754_infinity false.
Definition nan : double := S754_nan.

(** The literal [0.05]: the binary64 value nearest to 1/20. *)
Definition lit_0_05 : double := S754_finite false 7205759403792794 (-57).

Definition is_nan (a : double) : bool :=
  match a with S754_nan => true | _ => false end.

Definition is_finite (a : double) : bool :=
  match a with S754_zero _ | S754_finite _ _ _ => true | _ => false end.

(** The representation invariant of a binary64 value: a finite value has
    its canonical mantissa and exponent. *)
Definition well_formed (a : double) : bool := valid_binary prec emax a.

End Double.

Import Double.

Instance double_inhabited : Inhabited double := populate zero.

(** ** The [int] type: 32-bit two's complement *)

Definition INT_MIN : Z := - 2 ^ 31.
Definition INT_MAX : Z := 2 ^ 31 - 1.

Definition wrap_int (z : Z) : Z := ((z + 2 ^ 31) mod 2 ^ 32 - 2 ^ 31)%Z.

Definition is_int (z : Z) : Prop := (INT_MIN <= z <= INT_MAX)%Z.

(** ** Eigen vectors and matrices *)

Module Eigen.

Record Vector2d := { u0 : double; u1 : double }.
Record Vector3d := { p0 : double; p1 : double; p2 : double }.

(** A 3x3 matrix, stored by rows. *)
Record Matrix3d := { r0 : Vector3d; r1 : Vector3d; r2 : Vector3d }.

(** Matrices with 2 or 3 rows and a run-time number of columns, as the
    list of their columns. *)
Abbreviation Matrix2X := (list Vector2d).
Abbreviation Matrix3X := (list Vector3d).

(** One coefficient of a matrix product: the inner product of a row with
    a column, the three products summed from left to right.  Eigen is not
    part of the sources; the same product is used for a single vector and
    for every column of a batch. *)
Definition dot (r p : Vector3d) : double :=
  add (add (mul (p0 r) (p0 p)) (mul (p1 r) (p1 p))) (mul (p2 r) (p2 p)).

(** [M * p] for a 3x3 matrix and a 3-vector. *)
Definition mul_vec (M : Matrix3d) (p : Vector3d) : Vector3d :=
  {| p0 := dot (r0 M) p; p1 := dot (r1 M) p; p2 := dot (r2 M) p |}.

(** [M * P] for a 3x3 matrix and a 3xN matrix: column by column. *)
Definition mul_cols (M : Matrix3d) (P : Matrix3X) : Matrix3X :=
  map (mul_vec M) P.

(** [p.norm()] *)
Definition norm (p : Vector3d) : double :=
  sqrt (add (add (mul (p0 p) (p0 p)) (mul (p1 p) (p1 p))) (mul (p2 p) (p2 p))).

(** [a.cwiseQuotient(b)] on two rows of equal length. *)
Definition cwiseQuotient (a b : list double) : list double :=
  zip_with div a b.

Definition row0_3 (P : Matrix3X) : list double := map p0 P.
Definition row1_3 (P : Matrix3X) : list double := map p1 P.
Definition row2_3 (P : Matrix3X) : list double := map p2 P.

(** [U.row(0) = r] and [U.row(1) = r]: the other row is kept. *)
Definition set_row0 (U : Matrix2X) (r : list double) : Matrix2X :=
  zip_with (fun u x => {| u0 := x; u1 := u1 u |}) U r.
Definition set_row1 (U : Matrix2X) (r : list double) : Matrix2X :=
  zip_with (fun u y => {| u0 := u0 u; u1 := y |}) U r.

End Eigen.

Import Eigen.

Instance Vector2d_inhabited : Inhabited Vector2d :=
  populate {| u0 := zero; u1 := zero |}.
Instance Vector3d_inhabited : Inhabited Vector3d :=
  populate {| p0 := zero; p1 := zero; p2 := zero |}.

(** Modelled from the spec: the type [rpg::Pose] (rpg_common/pose.h) is not
    part of the sources; the spec describes it as a rigid transform, a
    rotation and a translation. *)
Record Pose := { rotation : Matrix3d; translation : Vector3d }.

(** ** The camera: the private fields of [PinholeCam] *)

Record PinholeCam := {
  fx_ : double; fy_ : double; cx_ : double; cy_ : double;
  w_ : Z; h_ : Z;
  w_margin_ : double; h_margin_ : double;
  min_depth_ : double;
  max_depth_ : double;
  min_dist_ : double;
  max_dist_ : double;
  T_b_c_ : Pose;
  K_ : Matrix3d;
  K_inv_ : Matrix3d;
  bearings_at_pixels_ : Matrix3X;
  pixel_bearing_computed_ : bool
}.

(** The default member initialisers of the threshold fields. *)
Definition default_min_depth : double := minus_one.
Definition default_max_depth : double := infinity.
Definition default_min_dist : double := minus_one.
Definition default_max_dist : double := infinity.

Definition has_default_depth_range (cam : PinholeCam) : Prop :=
  min_depth_ cam = default_min_depth /\ max_depth_ cam = default_max_depth.

(** ** Utilities *)

Definition isInsideImage (cam : PinholeCam) (u : Vector2d) : bool :=
  let x := u0 u in
  let y := u1 u in
  (gt x (w_margin_ cam) && lt x (sub (of_int (w_ cam)) (w_margin_ cam))) &&
  (gt y (h_margin_ cam) && lt y (sub (of_int (h_ cam)) (h_margin_ cam))).

Definition isDepthValid (cam : PinholeCam) (pc : Vector3d) (z_margin : double) : bool :=
  let z := p2 pc in
  gt z z_margin && lt z (max_depth_ cam) && gt z (min_depth_ cam).

(** The default argument [z_margin = 0.05]. *)
Definition isDepthValid_default (cam : PinholeCam) (pc : Vector3d) : bool :=
  isDepthValid cam pc lit_0_05.

Definition isDistanceValid (cam : PinholeCam) (pc : Vector3d) : bool :=
  let dist := norm pc in
  lt dist (max_dist_ cam) && gt dist (min_dist_ cam).

(** ** Threshold mutators

    Each returns [None] when its [CHECK] fails (the process is aborted) and
    the updated camera otherwise. *)

Definition setDepthRange (cam : PinholeCam) (min_z max_z : double) : option PinholeCam :=
  if lt min_z max_z then
    Some {| fx_ := fx_ cam; fy_ := fy_ cam; cx_ := cx_ cam; cy_ := cy_ cam;
            w_ := w_ cam; h_ := h_ cam;
            w_margin_ := w_margin_ cam; h_margin_ := h_margin_ cam;
            min_depth_ := min_z;
            max_depth_ := max_z;
            min_dist_ := min_dist_ cam;
            max_dist_ := max_dist_ cam;
            T_b_c_ := T_b_c_ cam; K_ := K_ cam; K_inv_ := K_inv_ cam;
            bearings_at_pixels_ := bearings_at_pixels_ cam;
            pixel_bearing_computed_ := pixel_bearing_computed_ cam |}
  else None.

Definition setDistRange (cam : PinholeCam) (min_dist max_dist : double) : option PinholeCam :=
  if lt min_dist max_dist then
    Some {| fx_ := fx_ cam; fy_ := fy_ cam; cx_ := cx_ cam; cy_ := cy_ cam;
            w_ := w_ cam; h_ := h_ cam;
            w_margin_ := w_margin_ cam; h_margin_ := h_margin_ cam;
            min_depth_ := min_depth_ cam;
            max_depth_ := max_depth_ cam;
            min_dist_ := min_dist;
            max_dist_ := max_dist;
            T_b_c_ := T_b_c_ cam; K_ := K_ cam; K_inv_ := K_inv_ cam;
            bearings_at_pixels_ := bearings_at_pixels_ cam;
            pixel_bearing_computed_ := pixel_bearing_computed_ cam |}
  else None.

Definition getMinDist (cam : PinholeCam) : double := min_dist_ cam.
Definition getMaxDist (cam : PinholeCam) : double := max_dist_ cam.

Definition setMargin (cam : PinholeCam) (ratio : double) : option PinholeCam :=
  if ge ratio zero then
    Some {| fx_ := fx_ cam; fy_ := fy_ cam; cx_ := cx_ cam; cy_ := cy_ cam;
            w_ := w_ cam; h_ := h_ cam;
            w_margin_ := mul (of_int (w_ cam)) ratio;
            h_margin_ := mul (of_int (h_ cam)) ratio;
            min_depth_ := min_depth_ cam;
            max_depth_ := max_depth_ cam;
            min_dist_ := min_dist_ cam;
            max_dist_ := max_dist_ cam;
            T_b_c_ := T_b_c_ cam; K_ := K_ cam; K_inv_ := K_inv_ cam;
            bearings_at_pixels_ := bearings_at_pixels_ cam;
            pixel_bearing_computed_ := pixel_bearing_computed_ cam |}
  else None.

(** ** Back-projection *)

Definition backproject3d (cam : PinholeCam) (u : Vector2d) : Vector3d :=
  let homo_u := {| p0 := u0 u; p1 := u1 u; p2 := one |} in
  mul_vec (K_inv_ cam) homo_u.

(** [fs] is the output argument: [None] for a null pointer, otherwise the
    matrix the caller has allocated. *)
Definition backproject3dBatch (cam : PinholeCam) (us : Matrix2X)
    (fs : option Matrix3X) : option Matrix3X :=
  fs0 ← fs;
  if decide (length us = length fs0) then
    let us_homo := map (fun u => {| p0 := u0 u; p1 := u1 u; p2 := one |}) us in
    Some (mul_cols (K_inv_ cam) us_homo)
  else None.

(** ** Batch projection *)

(** The loop over [i] from 0 to N-1 that assigns entry [i] of the
    visibility vector. *)
Definition visibility_loop (cam : PinholeCam) (pcs : Matrix3X) (us : Matrix2X)
    (N : nat) (is_visible : list bool) : list bool :=
  foldl (fun vis i =>
           <[i := isDepthValid_default cam (pcs !!! i) && isInsideImage cam (us !!! i)]> vis)
        is_visible (seq 0 N).

(** [us] and [is_visible] are the output arguments ([None]: null pointer);
    the result is their content on return. *)
Definition project3dBatch (cam : PinholeCam) (pcs : Matrix3X)
    (us : option Matrix2X) (is_visible : option (list bool))
    : option (Matrix2X * list bool) :=
  us0 ← us;
  vis0 ← is_visible;
  if decide (length pcs = length us0) then
    if decide (length pcs = length vis0) then
      let N := length pcs in
      let us_homo := mul_cols (K_ cam) pcs in
      let us1 := set_row0 us0 (cwiseQuotient (row0_3 us_homo) (row2_3 us_homo)) in
      let us2 := set_row1 us1 (cwiseQuotient (row1_3 us_homo) (row2_3 us_homo)) in
      Some (us2, visibility_loop cam pcs us2 N vis0)
    else None
  else None.



(** The state of the compaction loop: the two output containers and
    [vis_cnt]. *)
Abbreviation compact_state := (Matrix2X * list Z * nat)%type.




(** ** Bearing cache *)

(** [y * w_ + x] in [int] arithmetic.  Signed overflow is undefined in C++;
    it is written here as the usual wrap-around, and the properties below are
    stated where no overflow occurs. *)
Definition pixelCoordToFlatIdx (cam : PinholeCam) (x y : Z) : Z :=
  wrap_int (wrap_int (y * w_ cam) + x).

(** [M.col(i)]: Eigen asserts [0 <= i < cols()]. *)
Definition col (M : Matrix3X) (i : Z) : option Vector3d :=
  if decide (0 <= i)%Z then M !! Z.to_nat i else None.

Definition getBearingAtPixel (cam : PinholeCam) (x y : Z) : option Vector3d :=
  if pixel_bearing_computed_ cam then
    col (bearings_at_pixels_ cam) (pixelCoordToFlatIdx cam x y)
  else None.

Definition numBearings (cam : PinholeCam) : option Z :=
  if pixel_bearing_computed_ cam then
    Some (Z.of_nat (length (bearings_at_pixels_ cam)))
  else None.

Definition bearingVectorsComputed (cam : PinholeCam) : bool :=
  pixel_bearing_computed_ cam.

(** ** What the batch functions compute, column by column *)

(** The pixel written for one column: the first two homogeneous coordinates
    of [K * p] divided by the third. *)
Definition column_pixel (cam : PinholeCam) (p : Vector3d) : Vector2d :=
  let uh := mul_vec (K_ cam) p in
  {| u0 := div (p0 uh) (p2 uh); u1 := div (p1 uh) (p2 uh) |}.

(** The flag written for one column. *)
Definition column_visible (cam : PinholeCam) (p : Vector3d) : bool :=
  isDepthValid_default cam p && isInsideImage cam (column_pixel cam p).



(** ** Construction *)

Definition vec3 (x y z : double) : Vector3d := {| p0 := x; p1 := y; p2 := z |}.
Definition vec2 (x y : double) : Vector2d := {| u0 := x; u1 := y |}.

Definition identity3 : Matrix3d :=
  {| r0 := vec3 one zero zero; r1 := vec3 zero one zero; r2 := vec3 zero zero one |}.

Definition identity_pose : Pose :=
  {| rotation := identity3; translation := vec3 zero zero zero |}.

(** Modelled from the spec: the constructor and [updateK] are declared in the
    header but defined elsewhere.  The spec says that K is computed from the
    intrinsics, that K⁻¹ is its inverse, that the margins default to zero, and
    the header gives the initial thresholds and the empty bearing cache. *)
Definition intrinsic_matrix (fx fy cx cy : double) : Matrix3d :=
  {| r0 := vec3 fx zero cx; r1 := vec3 zero fy cy; r2 := vec3 zero zero one |}.

(** Modelled from the spec: the inverse of K, which the absent [updateK]
    obtains by matrix inversion; for this K it has the closed form below. *)
Definition intrinsic_matrix_inv (fx fy cx cy : double) : Matrix3d :=
  {| r0 := vec3 (div one fx) zero (SFopp (div cx fx));
     r1 := vec3 zero (div one fy) (SFopp (div cy fy));
     r2 := vec3 zero zero one |}.

(** Modelled from the spec: the absent constructor, from the parameter vector
    (fx, fy, cx, cy, w, h) and the body-to-camera pose. *)
Definition make_cam (fx fy cx cy : double) (w h : Z) (Tbc : Pose) : PinholeCam :=
  {| fx_ := fx; fy_ := fy; cx_ := cx; cy_ := cy; w_ := w; h_ := h;
     w_margin_ := zero; h_margin_ := zero;
     min_depth_ := default_min_depth; max_depth_ := default_max_depth;
     min_dist_ := default_min_dist; max_dist_ := default_max_dist;
     T_b_c_ := Tbc;
     K_ := intrinsic_matrix fx fy cx cy;
     K_inv_ := intrinsic_matrix_inv fx fy cx cy;
     bearings_at_pixels_ := [];
     pixel_bearing_computed_ := false |}.

(** The camera of the spec's worked examples: fx = fy = 300, cx = 320,
    cy = 240, w = 640, h = 480, margin ratio 0. *)
Definition example_cam : PinholeCam :=
  make_cam (of_int 300) (of_int 300) (of_int 320) (of_int 240) 640 480 identity_pose.

(** ** Members that the header only declares *)



(** The pixel grid in row-major order: the pixel (x, y) is at y * w + x. *)
Definition pixel_grid (w h : Z) : Matrix2X :=
  mjoin ((fun y => (fun x => vec2 (of_int x) (of_int y)) <$> seqZ 0 w) <$> seqZ 0 h).

(** Modelled from the spec: [computeBearingVectors] is declared in the header
    and defined elsewhere.  The spec: it back-projects every pixel of the full
    width x height grid once and stores the ray directions in flattened
    row-major order (index = y * w + x); the cache is then populated. *)
Definition computeBearingVectors (cam : PinholeCam) : option PinholeCam :=
  let us := pixel_grid (w_ cam) (h_ cam) in
  fs ← backproject3dBatch cam us (Some (replicate (length us) inhabitant));
  Some {| fx_ := fx_ cam; fy_ := fy_ cam; cx_ := cx_ cam; cy_ := cy_ cam;
          w_ := w_ cam; h_ := h_ cam;
          w_margin_ := w_margin_ cam; h_margin_ := h_margin_ cam;
          min_depth_ := min_depth_ cam;
          max_depth_ := max_depth_ cam;
          min_dist_ := min_dist_ cam;
          max_dist_ := max_dist_ cam;
          T_b_c_ := T_b_c_ cam; K_ := K_ cam; K_inv_ := K_inv_ cam;
          bearings_at_pixels_ := fs;
          pixel_bearing_computed_ := true |}.

(** ** Notions used to state and prove the properties *)

(** Sample data: the points (0,0,2), (0,0,-1), (0,0,0), (1000,0,2) and
    (1,1,1) in the camera frame, with landmark ids 7 to 11. *)
Definition sample_points : Matrix3X :=
  [ vec3 zero zero (of_int 2); vec3 zero zero minus_one; vec3 zero zero zero;
    vec3 (of_int 1000) zero (of_int 2); vec3 one one one ].



(** What none of the three mutators touches: the intrinsics, K, its inverse,
    the extrinsic pose and the bearing cache. *)
Definition same_geometry (cam cam' : PinholeCam) : Prop :=
  fx_ cam' = fx_ cam /\ fy_ cam' = fy_ cam /\ cx_ cam' = cx_ cam /\ cy_ cam' = cy_ cam /\
  w_ cam' = w_ cam /\ h_ cam' = h_ cam /\
  K_ cam' = K_ cam /\ K_inv_ cam' = K_inv_ cam /\ T_b_c_ cam' = T_b_c_ cam /\
  bearings_at_pixels_ cam' = bearings_at_pixels_ cam /\
  pixel_bearing_computed_ cam' = pixel_bearing_computed_ cam.

Definition same_depth_range (cam cam' : PinholeCam) : Prop :=
  min_depth_ cam' = min_depth_ cam /\ max_depth_ cam' = max_depth_ cam.

Definition same_dist_range (cam cam' : PinholeCam) : Prop :=
  min_dist_ cam' = min_dist_ cam /\ max_dist_ cam' = max_dist_ cam.

Definition same_margins (cam cam' : PinholeCam) : Prop :=
  w_margin_ cam' = w_margin_ cam /\ h_margin_ cam' = h_margin_ cam.

(** An image size: a non-negative [int]. *)
Definition image_size (n : Z) : Prop := (0 <= n <= INT_MAX)%Z.


(** A camera with a 4 x 3 image. *)
Definition small_cam : PinholeCam :=
  make_cam (of_int 2) (of_int 2) (of_int 2) one 4 3 identity_pose.

(** The literal [0.5]. *)
Definition lit_0_5 : double := S754_finite false 4503599627370496 (-53).

(** *** Rounding *)

Section RoundingNotions.

Local Open Scope Z_scope.

(** The number of bits of a mantissa. *)
Definition digits (m : positive) : Z := Zpos (digits2_pos m).

(** The location recorded by a shift record, for a remainder [rho] below
    [2 ^ k]. *)
Definition loc_of_remainder (rho k : Z) : location :=
  if rho =? 0 then loc_Exact else loc_Inexact (2 * rho ?= 2 ^ k).

(** [mrs] is [m] shifted right by [k] positions. *)
Definition shifted (m k : Z) (mrs : shr_record) : Prop :=
  0 <= shr_m mrs /\
  0 <= m - shr_m mrs * 2 ^ k < 2 ^ k /\
  loc_of_shr_record mrs = loc_of_remainder (m - shr_m mrs * 2 ^ k) k.

(** [q] is [m / 2 ^ k] rounded to the nearest integer, ties to even. *)
Definition nearest_even (m k q : Z) : Prop :=
  0 <= q /\
  (2 * q - 1) * 2 ^ k <= 2 * m <= (2 * q + 1) * 2 ^ k /\
  (2 * m = (2 * q - 1) * 2 ^ k -> Z.even q = true) /\
  (2 * m = (2 * q + 1) * 2 ^ k -> Z.even q = true).

(** The exponent binary64 gives to a value of magnitude [e]: 53 bits of
    mantissa, and no exponent below -1074. *)
Definition fexp64 (e : Z) : Z := Z.max (e - 53) (-1074).

(** The powers 2^52 and 2^53: the least 53-bit mantissa, and the first
    integer with 54 bits. *)
Definition two52 : Z := 4503599627370496.

Definition two53 : Z := 9007199254740992.

(** The binary64 value of [q * 2 ^ E], for a mantissa [q] of at most 53 bits,
    or [2 ^ 53]. *)
Definition rounded (s : bool) (q E : Z) : double :=
  match q with
  | Z0 => S754_zero s
  | Zpos m =>
      if q =? two53 then
        if E + 1 <=? 971 then S754_finite s 4503599627370496 (E + 1)
        else S754_infinity s
      else
        if E <=? 971 then S754_finite s m E else S754_infinity s
  | Zneg _ => S754_nan
  end.

(** A float that is zero, positive or +infinity. *)
Definition nonneg (a : double) : bool :=
  match a with
  | S754_zero _ | S754_finite false _ _ | S754_infinity false => true
  | _ => false
  end.

End RoundingNotions.

(** * Properties *)

(** The literal 0.05 is the correctly rounded quotient 1/20, and the sample
    camera projects the optical axis onto its principal point. *)
Example lit_0_05_is_one_twentieth :
  lit_0_05 = div one (of_int 20) /\ well_formed lit_0_05 = true.
Proof. by vm_compute. Qed.

Example example_cam_projects_axis :
  column_pixel example_cam (vec3 zero zero (of_int 2)) = vec2 (of_int 320) (of_int 240) /\
  column_visible example_cam (vec3 zero zero (of_int 2)) = true /\
  column_visible example_cam (vec3 zero zero minus_one) = false /\
  backproject3d example_cam (vec2 (of_int 320) (of_int 240)) = vec3 zero zero one.
Proof. by vm_compute. Qed.

(** ** The order of binary64 values *)

Section DoubleOrder.

Implicit Types a b c : double.

Ltac cases_compare :=
  repeat match goal with
    | H : context [Z.compare ?x ?y] |- _ => destruct (Z.compare_spec x y)
    | |- context [Z.compare ?x ?y] => destruct (Z.compare_spec x y)
    | H : context [Pos.compare ?x ?y] |- _ => destruct (Pos.compare_spec x y)
    | |- context [Pos.compare ?x ?y] => destruct (Pos.compare_spec x y)
    end.

Ltac by_cases :=
  simpl; change (Pos.compare_cont Eq) with Pos.compare in *;
  intros; cases_compare; simpl in *; subst;
  try congruence; try lia.

Lemma SFcompare_trans a b c r1 r2 :
  SFcompare a b = Some r1 -> SFcompare b c = Some r2 ->
  r1 <> Gt -> r2 <> Gt ->
  SFcompare a c = Some (match r1, r2 with Eq, Eq => Eq | _, _ => Lt end).
Proof.
  destruct a as [[]|[]| |[] ma ea], b as [[]|[]| |[] mb eb],
           c as [[]|[]| |[] mc ec], r1, r2; by_cases.
Qed.

Lemma SFcompare_antisym a b :
  SFcompare b a = CompOpp <$> SFcompare a b.
Proof.
  destruct a as [[]|[]| |[] ma ea], b as [[]|[]| |[] mb eb]; by_cases.
Qed.

Lemma lt_trans a b c : lt a b = true -> lt b c = true -> lt a c = true.
Proof.
  unfold lt, SFltb.
  destruct (SFcompare a b) as [[]|] eqn:E1; try done.
  destruct (SFcompare b c) as [[]|] eqn:E2; try done.
  intros _ _. by rewrite (SFcompare_trans _ _ _ _ _ E1 E2).
Qed.

Lemma le_lt_trans a b c : le a b = true -> lt b c = true -> lt a c = true.
Proof.
  unfold le, lt, SFleb, SFltb.
  destruct (SFcompare a b) as [[]|] eqn:E1; try done;
    (destruct (SFcompare b c) as [[]|] eqn:E2; try done);
    intros _ _; by rewrite (SFcompare_trans _ _ _ _ _ E1 E2).
Qed.

Lemma lt_le_trans a b c : lt a b = true -> le b c = true -> lt a c = true.
Proof.
  unfold le, lt, SFleb, SFltb.
  destruct (SFcompare a b) as [[]|] eqn:E1; try done;
    (destruct (SFcompare b c) as [[]|] eqn:E2; try done);
    intros _ _; by rewrite (SFcompare_trans _ _ _ _ _ E1 E2).
Qed.


Lemma lt_le_incl a b : lt a b = true -> le a b = true.
Proof. unfold le, lt, SFleb, SFltb. by destruct (SFcompare a b) as [[]|]. Qed.

(** [a <= b] excludes [b < a]. *)
Lemma le_not_gt a b : le a b = true -> lt b a = false.
Proof.
  unfold le, lt, SFleb, SFltb. rewrite (SFcompare_antisym a b).
  by destruct (SFcompare a b) as [[]|].
Qed.

Lemma lt_not_ge a b : lt a b = true -> le b a = false.
Proof.
  unfold le, lt, SFleb, SFltb. rewrite (SFcompare_antisym a b).
  by destruct (SFcompare a b) as [[]|].
Qed.

(** Two values that are not NaN are comparable. *)
Lemma not_lt_ge a b :
  is_nan a = false -> is_nan b = false -> lt a b = false -> le b a = true.
Proof.
  unfold le, lt, SFleb, SFltb.
  destruct a as [[]|[]| |[] ma ea], b as [[]|[]| |[] mb eb]; try done; by_cases.
Qed.

Lemma lt_nan_l a : lt nan a = false.
Proof. done. Qed.

Lemma lt_nan_r a : lt a nan = false.
Proof. by destruct a as [[]|[]| |[] ma ea]. Qed.

Lemma le_nan_l a : le nan a = false.
Proof. done. Qed.

Lemma le_nan_r a : le a nan = false.
Proof. by destruct a as [[]|[]| |[] ma ea]. Qed.

(** Everything but NaN and +infinity itself is below +infinity. *)
Lemma lt_infinity a :
  lt a infinity = match a with S754_nan | S754_infinity false => false | _ => true end.
Proof. by destruct a as [[]|[]| |[] ma ea]. Qed.

End DoubleOrder.

(** ** Rounding of binary64 values is monotone *)

Section Rounding.

Local Open Scope Z_scope.

Lemma digits_pos m : 1 <= digits m.
Proof. unfold digits. lia. Qed.

Lemma digits_bounds m : 2 ^ (digits m - 1) <= Zpos m < 2 ^ digits m.
Proof.
  unfold digits. induction m as [m IH|m IH|]; simpl digits2_pos.
  - rewrite Pos2Z.inj_succ.
    replace (Z.succ (Z.pos (digits2_pos m)) - 1) with (Z.pos (digits2_pos m) - 1 + 1) by lia.
    rewrite Z.pow_succ_r, Z.pow_add_r by lia. lia.
  - rewrite Pos2Z.inj_succ.
    replace (Z.succ (Z.pos (digits2_pos m)) - 1) with (Z.pos (digits2_pos m) - 1 + 1) by lia.
    rewrite Z.pow_succ_r, Z.pow_add_r by lia. lia.
  - simpl. lia.
Qed.

(** The digit count is determined by the bounds. *)
Lemma digits_unique m d : 2 ^ (d - 1) <= Zpos m < 2 ^ d -> digits m = d.
Proof.
  intros [Hlo Hhi]. pose proof (digits_bounds m) as [Hlo' Hhi'].
  pose proof (digits_pos m).
  assert (0 <= d) by (destruct (Z.le_gt_cases 0 d); [done|]; rewrite Z.pow_neg_r in Hhi by lia; lia).
  destruct (Z.lt_trichotomy (digits m) d) as [Hlt|[Heq|Hgt]]; [|done|].
  - assert (2 ^ digits m <= 2 ^ (d - 1)) by (apply Z.pow_le_mono_r; lia). lia.
  - assert (2 ^ d <= 2 ^ (digits m - 1)) by (apply Z.pow_le_mono_r; lia). lia.
Qed.

(** ** Right shifts with round and sticky bits *)

Lemma shifted_0 m : 0 <= m -> shifted m 0 (Build_shr_record m false false).
Proof.
  intros Hm. unfold shifted, loc_of_remainder. cbn [shr_m loc_of_shr_record].
  rewrite Z.pow_0_r, Z.mul_1_r, Z.sub_diag. simpl. split_and!; (lia || done).
Qed.

Lemma shr_1_div2 mrs : 0 <= shr_m mrs ->
  shr_m (shr_1 mrs) = shr_m mrs / 2 /\
  shr_r (shr_1 mrs) = Z.odd (shr_m mrs) /\
  shr_s (shr_1 mrs) = shr_r mrs || shr_s mrs.
Proof.
  destruct mrs as [m r s]. simpl. intros Hm.
  destruct m as [|[p|p|]|p]; simpl; try lia; split_and!; try done.
  - rewrite Pos2Z.inj_xI. apply Z.div_unique with 1; lia.
  - rewrite Pos2Z.inj_xO. apply Z.div_unique with 0; lia.
Qed.

Lemma shifted_S m k mrs :
  0 <= k -> shifted m k mrs -> shifted m (k + 1) (shr_1 mrs).
Proof.
  intros Hk (Hm & Hrho & Hloc).
  destruct (shr_1_div2 mrs Hm) as (Hm' & Hr' & Hs').
  destruct (shr_1 mrs) as [m1 r1 s1]. destruct mrs as [mk r s].
  cbn [shr_m shr_r shr_s] in *. subst m1 r1 s1.
  pose proof (Z.div_mod mk 2 ltac:(lia)) as Hdiv.
  pose proof (Z.mod_pos_bound mk 2 ltac:(lia)) as Hmod.
  assert (0 < 2 ^ k) as Hpow by (apply Z.pow_pos_nonneg; lia).
  unfold shifted. cbn [shr_m]. rewrite Z.pow_add_r, Z.pow_1_r by lia.
  split; [apply Z.div_pos; lia|].
  set (rho := m - mk * 2 ^ k) in *.
  assert (m - mk / 2 * (2 ^ k * 2) = rho + (mk mod 2) * 2 ^ k) as ->
    by (unfold rho; nia).
  clearbody rho. split; [nia|].
  rewrite Zodd_mod. unfold loc_of_remainder in *. unfold loc_of_shr_record in *.
  rewrite Z.pow_add_r, Z.pow_1_r by lia.
  destruct (Z.eqb_spec rho 0) as [Hz|Hnz].
  - destruct r, s; try done. simpl.
    assert (mk mod 2 = 0 \/ mk mod 2 = 1) as [->| ->] by lia; simpl.
    + rewrite Hz. simpl. done.
    + destruct (Z.eqb_spec (rho + 1 * 2 ^ k) 0); [exfalso; lia|].
      f_equal. symmetry. apply Z.compare_eq_iff. lia.
  - assert (r || s = true) as -> by (by destruct r, s).
    assert (mk mod 2 = 0 \/ mk mod 2 = 1) as [->| ->] by lia; simpl.
    + destruct (Z.eqb_spec (rho + 0 * 2 ^ k) 0); [exfalso; lia|].
      f_equal. symmetry. apply Z.compare_lt_iff. lia.
    + destruct (Z.eqb_spec (rho + 1 * 2 ^ k) 0); [exfalso; lia|].
      f_equal. symmetry. apply Z.compare_gt_iff. lia.
Qed.

Lemma shifted_iter m p : forall k mrs,
  0 <= k -> shifted m k mrs -> shifted m (k + Zpos p) (SpecFloat.iter_pos shr_1 p mrs).
Proof.
  induction p as [p IH|p IH|]; intros k mrs Hk Hs; simpl.
  - replace (k + Z.pos p~1) with (k + 1 + Z.pos p + Z.pos p) by lia.
    apply IH; [lia|]. apply IH; [lia|]. by apply shifted_S.
  - replace (k + Z.pos p~0) with (k + Z.pos p + Z.pos p) by lia.
    apply IH; [lia|]. by apply IH.
  - by apply shifted_S.
Qed.

Lemma shifted_shr m n e :
  0 <= m ->
  shifted m (Z.max 0 n) (fst (shr (Build_shr_record m false false) e n)) /\
  snd (shr (Build_shr_record m false false) e n) = e + Z.max 0 n.
Proof.
  intros Hm. destruct n as [|p|p]; simpl.
  - split; [by apply shifted_0 | lia].
  - split; [| lia]. apply (shifted_iter m p 0); [lia | by apply shifted_0].
  - split; [by apply shifted_0 | lia].
Qed.

(** ** Rounding to nearest, ties to even *)

Lemma shifted_nearest_even m k mrs :
  0 <= k -> shifted m k mrs ->
  nearest_even m k (round_nearest_even (shr_m mrs) (loc_of_shr_record mrs)).
Proof.
  intros Hk (Hm & Hrho & ->).
  assert (0 < 2 ^ k) as Hpow by (apply Z.pow_pos_nonneg; lia).
  destruct mrs as [mk r s]. cbn [shr_m] in *. clear r s.
  unfold nearest_even, loc_of_remainder, round_nearest_even.
  set (P := 2 ^ k) in *. clearbody P.
  set (X := mk * P) in *.
  destruct (Z.eqb_spec (m - X) 0) as [Hz|Hnz].
  { replace ((2 * mk - 1) * P) with (2 * X - P) by (unfold X; ring).
    replace ((2 * mk + 1) * P) with (2 * X + P) by (unfold X; ring).
    split_and!; lia. }
  destruct (Z.compare_spec (2 * (m - X)) P) as [Heq|Hlt|Hgt].
  - destruct (Z.even mk) eqn:Hev.
    + replace ((2 * mk - 1) * P) with (2 * X - P) by (unfold X; ring).
      replace ((2 * mk + 1) * P) with (2 * X + P) by (unfold X; ring).
      split_and!; (lia || done).
    + replace ((2 * (mk + 1) - 1) * P) with (2 * X + P) by (unfold X; ring).
      replace ((2 * (mk + 1) + 1) * P) with (2 * X + 3 * P) by (unfold X; ring).
      assert (Z.even (mk + 1) = true) by (rewrite Z.even_add, Hev; done).
      split_and!; (lia || done).
  - replace ((2 * mk - 1) * P) with (2 * X - P) by (unfold X; ring).
    replace ((2 * mk + 1) * P) with (2 * X + P) by (unfold X; ring).
    split_and!; lia.
  - replace ((2 * (mk + 1) - 1) * P) with (2 * X + P) by (unfold X; ring).
    replace ((2 * (mk + 1) + 1) * P) with (2 * X + 3 * P) by (unfold X; ring).
    split_and!; lia.
Qed.

(** Rounding to nearest even is monotone, also across different shifts. *)
Lemma nearest_even_mono m1 k1 q1 m2 k2 q2 :
  0 <= k1 -> 0 <= k2 ->
  nearest_even m1 k1 q1 -> nearest_even m2 k2 q2 ->
  m1 * 2 ^ k2 <= m2 * 2 ^ k1 ->
  q1 <= q2.
Proof.
  intros Hk1 Hk2 (Hq1 & [Hlo1 Hhi1] & Hevlo1 & _) (Hq2 & [Hlo2 Hhi2] & _ & Hevhi2) Hle.
  assert (0 < 2 ^ k1) as HP1 by (apply Z.pow_pos_nonneg; lia).
  assert (0 < 2 ^ k2) as HP2 by (apply Z.pow_pos_nonneg; lia).
  set (P1 := 2 ^ k1) in *. set (P2 := 2 ^ k2) in *. clearbody P1 P2.
  destruct (Z.le_gt_cases q1 q2) as [|Hgt]; [done|exfalso].
  assert ((2 * q1 - 1) * P1 * P2 <= 2 * m1 * P2) as A1 by nia.
  assert (2 * m2 * P1 <= (2 * q2 + 1) * P2 * P1) as A2 by nia.
  assert ((2 * q2 + 1) * (P1 * P2) <= (2 * q1 - 1) * (P1 * P2)) as A3
    by (apply Z.mul_le_mono_nonneg_r; nia).
  assert (q1 = q2 + 1) as -> by nia.
  assert (2 * m1 = (2 * (q2 + 1) - 1) * P1) as E1 by nia.
  assert (2 * m2 = (2 * q2 + 1) * P2) as E2 by nia.
  specialize (Hevlo1 E1). specialize (Hevhi2 E2).
  rewrite Z.even_add, Hevhi2 in Hevlo1. done.
Qed.

(** ** The rounding of binary64 *)

Lemma fexp_fexp64 e : fexp prec emax e = fexp64 e.
Proof. reflexivity. Qed.

Lemma fexp64_mono e e' : e <= e' -> fexp64 e <= fexp64 e'.
Proof. unfold fexp64. lia. Qed.

Lemma shr_no_shift mrs e n : n <= 0 -> shr mrs e n = (mrs, e).
Proof. by destruct n. Qed.

(** What [binary_round_aux] does to an exact mantissa that has at least as
    many bits as its exponent asks for. *)
Lemma binary_round_aux_rounded s (m : positive) e :
  e <= fexp64 (digits m + e) ->
  exists q,
    nearest_even (Zpos m) (fexp64 (digits m + e) - e) q /\
    q <= two53 /\
    (-1074 < fexp64 (digits m + e) -> two52 <= q) /\
    binary_round_aux prec emax s (Zpos m) e loc_Exact
    = rounded s q (fexp64 (digits m + e)).
Proof.
  intros Hpre. set (E := fexp64 (digits m + e)) in *.
  unfold binary_round_aux, shr_fexp. rewrite fexp_fexp64.
  cbn [Zdigits2 shr_record_of_loc]. fold (digits m). fold E.
  destruct (shifted_shr (Zpos m) (E - e) e ltac:(lia)) as [Hsh He'].
  rewrite Z.max_r in Hsh, He' by lia.
  destruct (shr _ e (E - e)) as [mrs' e']. cbn [fst snd] in *.
  replace e' with E by lia. clear He' e'.
  pose proof (shifted_nearest_even _ (E - e) _ ltac:(lia) Hsh) as Hne.
  set (q := round_nearest_even (shr_m mrs') (loc_of_shr_record mrs')) in *.
  clearbody q. clear Hsh mrs'.
  pose proof (digits_bounds m) as [Hdlo Hdhi]. pose proof (digits_pos m) as Hd1.
  assert (0 < 2 ^ (E - e)) as HP by (apply Z.pow_pos_nonneg; lia).
  destruct Hne as (Hq0 & [Hlo Hhi] & Hev).
  assert (q <= two53) as Hq53.
  { assert (2 ^ digits m <= 2 ^ (E - e) * two53) as Hb.
    { change two53 with (2 ^ 53). rewrite <- Z.pow_add_r by lia.
      apply Z.pow_le_mono_r; [lia|]. unfold E, fexp64. lia. }
    unfold two53 in *. nia. }
  assert (-1074 < E -> two52 <= q) as Hq52.
  { intros HE.
    assert (2 ^ (E - e) * two52 <= 2 ^ (digits m - 1)) as Hb.
    { change two52 with (2 ^ 52). rewrite <- Z.pow_add_r by lia.
      apply Z.pow_le_mono_r; [lia|]. unfold E, fexp64 in *. lia. }
    unfold two52 in *. nia. }
  exists q. split; [done|]. split; [done|]. split; [done|].
  destruct q as [|mq|mq]; [| |lia].
  - (* the mantissa rounds to zero *)
    cbn [Zdigits2 shr_record_of_loc]. rewrite shr_no_shift; [done|].
    rewrite fexp_fexp64. unfold fexp64, E, fexp64. lia.
  - cbn [Zdigits2 shr_record_of_loc]. fold (digits mq). rewrite fexp_fexp64.
    unfold rounded. destruct (Z.eqb_spec (Zpos mq) two53) as [Heq|Hne].
    + injection Heq as ->. 
      assert (fexp64 (digits 9007199254740992 + E) - E = 1) as ->
        by (unfold digits; simpl; unfold fexp64, E, fexp64; lia).
      cbn [shr iter_pos shr_1 shr_m fst snd]. done.
    + assert (digits mq <= 53) as Hdq.
      { pose proof (digits_bounds mq) as [Hl _].
        destruct (Z.le_gt_cases (digits mq) 53); [done|exfalso].
        assert (2 ^ 53 <= 2 ^ (digits mq - 1)) by (apply Z.pow_le_mono_r; lia).
        unfold two53 in *. lia. }
      rewrite shr_no_shift by (unfold fexp64, E, fexp64 in *; lia).
      cbn [shr_m]. done.
Qed.

Lemma SFleb_finite_pos m1 e1 m2 e2 :
  SFleb (S754_finite false m1 e1) (S754_finite false m2 e2) = true
  <-> e1 < e2 \/ (e1 = e2 /\ Zpos m1 <= Zpos m2).
Proof.
  unfold SFleb, SFcompare. change (Pos.compare_cont Eq) with Pos.compare.
  destruct (Z.compare_spec e1 e2), (Pos.compare_spec m1 m2); split;
    intros; try done; try lia.
Qed.

Ltac cases_rounded :=
  unfold rounded;
  repeat match goal with
    | |- context [Z.eqb ?x ?y] => destruct (Z.eqb_spec x y)
    | |- context [Z.leb ?x ?y] => destruct (Z.leb_spec x y)
    end;
  unfold two52, two53 in *;
  try reflexivity; try (exfalso; lia); try (apply SFleb_finite_pos; lia).

Lemma rounded_le_same E q1 q2 :
  0 <= q1 <= q2 -> q2 <= two53 ->
  SFleb (rounded false q1 E) (rounded false q2 E) = true.
Proof.
  unfold two53. intros Hq1 Hq2.
  destruct q1 as [|m1|m1], q2 as [|m2|m2]; try lia; cases_rounded.
Qed.

Lemma rounded_le_lt E1 E2 q1 q2 :
  0 <= q1 <= two53 -> two52 <= q2 <= two53 -> E1 < E2 ->
  SFleb (rounded false q1 E1) (rounded false q2 E2) = true.
Proof.
  unfold two52, two53. intros Hq1 Hq2 HE.
  destruct q1 as [|m1|m1], q2 as [|m2|m2]; try lia; cases_rounded.
Qed.

(** The sum of bit count and exponent is monotone in the value. *)
Lemma digits_mono (m1 m2 : positive) a b :
  0 <= a -> 0 <= b ->
  Zpos m1 * 2 ^ a <= Zpos m2 * 2 ^ b ->
  digits m1 + a <= digits m2 + b.
Proof.
  intros Ha Hb Hle.
  pose proof (digits_bounds m1) as [Hlo1 _]. pose proof (digits_bounds m2) as [_ Hhi2].
  pose proof (digits_pos m1). pose proof (digits_pos m2).
  assert (0 < 2 ^ a) by (apply Z.pow_pos_nonneg; lia).
  assert (0 < 2 ^ b) by (apply Z.pow_pos_nonneg; lia).
  assert (2 ^ (digits m1 - 1 + a) < 2 ^ (digits m2 + b)) as Hpow.
  { rewrite !Z.pow_add_r by lia. nia. }
  apply Z.pow_lt_mono_r_iff in Hpow; lia.
Qed.

(** Rounding is monotone: the core of every monotonicity fact below.  The
    two values are compared after scaling by a common power [2 ^ (- B)]. *)
Lemma binary_round_aux_mono (m1 m2 : positive) e1 e2 B :
  e1 <= fexp64 (digits m1 + e1) -> e2 <= fexp64 (digits m2 + e2) ->
  B <= e1 -> B <= e2 ->
  Zpos m1 * 2 ^ (e1 - B) <= Zpos m2 * 2 ^ (e2 - B) ->
  SFleb (binary_round_aux prec emax false (Zpos m1) e1 loc_Exact)
        (binary_round_aux prec emax false (Zpos m2) e2 loc_Exact) = true.
Proof.
  intros Hp1 Hp2 HB1 HB2 Hle.
  destruct (binary_round_aux_rounded false m1 e1 Hp1) as (q1 & Hn1 & Hq1 & _ & ->).
  destruct (binary_round_aux_rounded false m2 e2 Hp2) as (q2 & Hn2 & Hq2 & Hlow2 & ->).
  pose proof (digits_mono m1 m2 (e1 - B) (e2 - B) ltac:(lia) ltac:(lia) Hle) as Hd.
  pose proof (fexp64_mono (digits m1 + e1) (digits m2 + e2) ltac:(lia)) as HE.
  set (E1 := fexp64 (digits m1 + e1)) in *. set (E2 := fexp64 (digits m2 + e2)) in *.
  assert (0 <= q1) by apply Hn1. assert (0 <= q2) by apply Hn2.
  destruct (Z.eq_dec E1 E2) as [Heq|Hne].
  - rewrite Heq in *. apply rounded_le_same; [|done]. split; [done|].
    apply (nearest_even_mono (Zpos m1) (E2 - e1) q1 (Zpos m2) (E2 - e2) q2);
      try done; try lia.
    assert (0 < 2 ^ (e1 - B)) by (apply Z.pow_pos_nonneg; lia).
    assert (0 < 2 ^ (e2 - B)) by (apply Z.pow_pos_nonneg; lia).
    assert (2 ^ (E2 - e2) * 2 ^ (e2 - B) = 2 ^ (E2 - B)) as X2
      by (rewrite <- Z.pow_add_r by lia; f_equal; lia).
    assert (2 ^ (E2 - e1) * 2 ^ (e1 - B) = 2 ^ (E2 - B)) as X1
      by (rewrite <- Z.pow_add_r by lia; f_equal; lia).
    assert (0 < 2 ^ (E2 - B)) by (apply Z.pow_pos_nonneg; lia).
    assert (0 < 2 ^ (E2 - e1)) by (apply Z.pow_pos_nonneg; lia).
    assert (0 < 2 ^ (E2 - e2)) by (apply Z.pow_pos_nonneg; lia).
    apply (Z.mul_le_mono_pos_r _ _ (2 ^ (e1 - B) * 2 ^ (e2 - B))); [nia|].
    replace (Z.pos m1 * 2 ^ (E2 - e2) * (2 ^ (e1 - B) * 2 ^ (e2 - B)))
      with (Z.pos m1 * 2 ^ (e1 - B) * (2 ^ (E2 - e2) * 2 ^ (e2 - B))) by ring.
    replace (Z.pos m2 * 2 ^ (E2 - e1) * (2 ^ (e1 - B) * 2 ^ (e2 - B)))
      with (Z.pos m2 * 2 ^ (e2 - B) * (2 ^ (E2 - e1) * 2 ^ (e1 - B))) by ring.
    rewrite X1, X2. apply Z.mul_le_mono_nonneg_r; lia.
  - apply rounded_le_lt; try lia.
    assert (-1074 < E2) by (unfold E1, E2, fexp64 in *; lia).
    split; [by apply Hlow2 | done].
Qed.

(** ** Canonical representations *)

Lemma well_formed_finite s m e :
  well_formed (S754_finite s m e) = true <-> fexp64 (digits m + e) = e /\ e <= 971.
Proof.
  unfold well_formed, valid_binary, bounded, canonical_mantissa.
  rewrite fexp_fexp64. fold (digits m). change (emax - prec) with 971.
  rewrite andb_true_iff, Z.eqb_eq, Z.leb_le. done.
Qed.

Lemma digits_le_53 m : Zpos m < two53 -> digits m <= 53.
Proof.
  intros Hm. pose proof (digits_bounds m) as [Hl _].
  destruct (Z.le_gt_cases (digits m) 53); [done|exfalso].
  assert (2 ^ 53 <= 2 ^ (digits m - 1)) by (apply Z.pow_le_mono_r; lia).
  unfold two53 in *. lia.
Qed.

Lemma digits_ge_53 m : two52 <= Zpos m -> 53 <= digits m.
Proof.
  intros Hm. pose proof (digits_bounds m) as [_ Hh]. pose proof (digits_pos m).
  destruct (Z.le_gt_cases 53 (digits m)); [done|exfalso].
  assert (2 ^ digits m <= 2 ^ 52) by (apply Z.pow_le_mono_r; lia).
  unfold two52 in *. lia.
Qed.

Lemma well_formed_finite_bounds s m e :
  well_formed (S754_finite s m e) = true ->
  -1074 <= e <= 971 /\ Zpos m < two53 /\ (-1074 < e -> two52 <= Zpos m).
Proof.
  intros [Hc He]%well_formed_finite. pose proof (digits_bounds m) as [Hl Hh].
  pose proof (digits_pos m). unfold fexp64 in Hc. split; [lia|]. split.
  - assert (2 ^ digits m <= 2 ^ 53) by (apply Z.pow_le_mono_r; lia).
    unfold two53. lia.
  - intros Hn. assert (digits m = 53) as Hd by lia. rewrite Hd in Hl.
    unfold two52. lia.
Qed.

Lemma rounded_well_formed s q E :
  0 <= q <= two53 -> -1074 <= E -> (-1074 < E -> two52 <= q) ->
  well_formed (rounded s q E) = true.
Proof.
  intros Hq HE Hlow. unfold rounded.
  destruct q as [|m|m]; [done| |lia].
  destruct (Z.eqb_spec (Zpos m) two53) as [Heq|Hne].
  - destruct (Z.leb_spec (E + 1) 971); [|done].
    apply well_formed_finite. split; [|done]. unfold digits. simpl. unfold fexp64. lia.
  - destruct (Z.leb_spec E 971); [|done].
    apply well_formed_finite. split; [|done].
    pose proof (digits_le_53 m ltac:(lia)). pose proof (digits_pos m).
    unfold fexp64. destruct (Z.eq_dec E (-1074)) as [->|]; [lia|].
    pose proof (digits_ge_53 m ltac:(lia)). lia.
Qed.

Lemma rounded_nonneg q E : 0 <= q -> nonneg (rounded false q E) = true.
Proof.
  intros Hq. unfold rounded. destruct q; [done| |lia].
  by repeat match goal with |- context [if ?b then _ else _] => destruct b end.
Qed.

(** ** Alignment and [binary_round] *)

Lemma Pos_iter_xO m d : Zpos (Pos.iter xO m d) = Zpos m * 2 ^ Zpos d.
Proof.
  induction d as [|d IH] using Pos.peano_ind.
  - simpl. lia.
  - rewrite Pos.iter_succ, Pos2Z.inj_xO, IH, Pos2Z.inj_succ, Z.pow_succ_r by lia. ring.
Qed.

Lemma shl_align_spec m e e' :
  snd (shl_align m e e') = Z.min e e' /\
  Zpos (fst (shl_align m e e')) = Zpos m * 2 ^ (e - Z.min e e').
Proof.
  unfold shl_align. destruct (e' - e) as [|d|d] eqn:Hd; cbn [fst snd].
  - rewrite Z.min_l by lia. rewrite Z.sub_diag. simpl. lia.
  - rewrite Z.min_l by lia. rewrite Z.sub_diag. simpl. lia.
  - rewrite Z.min_r by lia. split; [done|].
    rewrite Pos_iter_xO. f_equal. f_equal. lia.
Qed.

Lemma digits_shift m mz k :
  0 <= k -> Zpos mz = Zpos m * 2 ^ k -> digits mz = digits m + k.
Proof.
  intros Hk Hmz. apply digits_unique. rewrite Hmz.
  pose proof (digits_bounds m) as [Hl Hh]. pose proof (digits_pos m).
  replace (digits m + k - 1) with (digits m - 1 + k) by lia.
  rewrite !Z.pow_add_r by lia.
  assert (0 < 2 ^ k) by (apply Z.pow_pos_nonneg; lia). nia.
Qed.

(** [binary_round] is [binary_round_aux] on an aligned mantissa, which has
    the same value and meets the condition of the lemmas above. *)
Lemma binary_round_aligned s m e :
  exists mz ez,
    binary_round prec emax s m e
    = binary_round_aux prec emax s (Zpos mz) ez loc_Exact /\
    ez <= e /\ Zpos mz = Zpos m * 2 ^ (e - ez) /\
    digits mz + ez = digits m + e /\
    ez <= fexp64 (digits mz + ez).
Proof.
  unfold binary_round. rewrite fexp_fexp64. fold (digits m).
  destruct (shl_align_spec m e (fexp64 (digits m + e))) as [Hez Hmz].
  destruct (shl_align m e (fexp64 (digits m + e))) as [mz ez]. cbn [fst snd] in *.
  exists mz, ez. split; [done|]. rewrite <- Hez in Hmz.
  assert (digits mz = digits m + (e - ez)) as Hd by (apply digits_shift; [lia|done]).
  split; [lia|]. split; [done|]. split; [lia|].
  rewrite Hd. replace (digits m + (e - ez) + ez) with (digits m + e) by lia. lia.
Qed.

Lemma binary_round_rounded s m e :
  exists q,
    binary_round prec emax s m e = rounded s q (fexp64 (digits m + e)) /\
    0 <= q <= two53 /\ (-1074 < fexp64 (digits m + e) -> two52 <= q).
Proof.
  destruct (binary_round_aligned s m e) as (mz & ez & -> & _ & _ & Hd & Hpre).
  destruct (binary_round_aux_rounded s mz ez Hpre) as (q & Hn & Hq & Hlow & ->).
  rewrite Hd in *. exists q. split; [done|]. split; [|done].
  split; [apply Hn | done].
Qed.

Lemma binary_round_mono (m1 m2 : positive) e1 e2 B :
  B <= e1 -> B <= e2 ->
  Zpos m1 * 2 ^ (e1 - B) <= Zpos m2 * 2 ^ (e2 - B) ->
  SFleb (binary_round prec emax false m1 e1) (binary_round prec emax false m2 e2) = true.
Proof.
  intros HB1 HB2 Hle.
  destruct (binary_round_aligned false m1 e1) as (mz1 & ez1 & -> & Hz1 & Hm1 & _ & Hp1).
  destruct (binary_round_aligned false m2 e2) as (mz2 & ez2 & -> & Hz2 & Hm2 & _ & Hp2).
  set (B' := Z.min B (Z.min ez1 ez2)).
  apply (binary_round_aux_mono mz1 mz2 ez1 ez2 B'); try done; try (unfold B'; lia).
  rewrite Hm1, Hm2.
  assert (forall m e ez, ez <= e -> B' <= ez -> B <= e ->
            m * 2 ^ (e - ez) * 2 ^ (ez - B') = m * 2 ^ (e - B) * 2 ^ (B - B')) as Hsc.
  { intros m e ez ? ? ?. rewrite <- !Z.mul_assoc, <- !Z.pow_add_r by (unfold B'; lia).
    do 2 f_equal. lia. }
  rewrite (Hsc (Zpos m1) e1 ez1), (Hsc (Zpos m2) e2 ez2) by (unfold B'; lia).
  apply Z.mul_le_mono_nonneg_r; [|done].
  apply Z.pow_nonneg. lia.
Qed.

(** ** Signs *)

Lemma binary_round_aux_opp m e l :
  binary_round_aux prec emax true m e l
  = SFopp (binary_round_aux prec emax false m e l).
Proof.
  unfold binary_round_aux.
  destruct (shr_fexp prec emax m e l) as [mrs' e'].
  destruct (shr_fexp prec emax _ e' loc_Exact) as [mrs'' e''].
  destruct (shr_m mrs''); [done| |done].
  by destruct (e'' <=? emax - prec).
Qed.

Lemma binary_round_opp m e :
  binary_round prec emax true m e = SFopp (binary_round prec emax false m e).
Proof.
  unfold binary_round. destruct (shl_align _ _ _) as [mz ez].
  apply binary_round_aux_opp.
Qed.

Lemma binary_round_nonneg m e : nonneg (binary_round prec emax false m e) = true.
Proof.
  destruct (binary_round_rounded false m e) as (q & -> & Hq & _).
  apply rounded_nonneg. lia.
Qed.

Lemma binary_round_well_formed s m e : well_formed (binary_round prec emax s m e) = true.
Proof.
  destruct (binary_round_rounded s m e) as (q & -> & Hq & Hlow).
  apply rounded_well_formed; try done. unfold fexp64. lia.
Qed.

Lemma SFleb_opp (a b : double) : SFleb (SFopp a) (SFopp b) = SFleb b a.
Proof.
  unfold SFleb.
  destruct a as [[]|[]| |[] ma ea], b as [[]|[]| |[] mb eb]; simpl; try done;
    change (Pos.compare_cont Eq) with Pos.compare;
    destruct (Z.compare_spec ea eb), (Z.compare_spec eb ea); try lia; try done;
    destruct (Pos.compare_spec ma mb), (Pos.compare_spec mb ma); try lia; try done.
Qed.

Lemma SFleb_nonpos_nonneg (a b : double) :
  nonneg a = true -> nonneg b = true -> SFleb (SFopp a) b = true.
Proof.
  by destruct a as [[]|[]| |[] ma ea], b as [[]|[]| |[] mb eb].
Qed.

Lemma SFleb_zero_nonneg s (a : double) :
  nonneg a = true -> SFleb (S754_zero s) a = true.
Proof. by destruct a as [[]|[]| |[] ma ea]. Qed.

Lemma SFleb_refl (a : double) : a <> S754_nan -> SFleb a a = true.
Proof.
  unfold SFleb.
  destruct a as [[]|[]| |[] ma ea]; simpl; try done;
    change (Pos.compare_cont Eq) with Pos.compare;
    by rewrite Z.compare_refl, Pos.compare_refl.
Qed.

(** [binary_normalize] is monotone in the value of its argument. *)
Lemma binary_normalize_mono z1 e1 z2 e2 B :
  B <= e1 -> B <= e2 ->
  z1 * 2 ^ (e1 - B) <= z2 * 2 ^ (e2 - B) ->
  SFleb (binary_normalize prec emax z1 e1 false)
        (binary_normalize prec emax z2 e2 false) = true.
Proof.
  intros HB1 HB2 Hle.
  assert (0 < 2 ^ (e1 - B)) by (apply Z.pow_pos_nonneg; lia).
  assert (0 < 2 ^ (e2 - B)) by (apply Z.pow_pos_nonneg; lia).
  destruct z1 as [|m1|m1], z2 as [|m2|m2]; cbn [binary_normalize];
    try (exfalso; nia).
  - done.
  - apply SFleb_zero_nonneg, binary_round_nonneg.
  - by apply (binary_round_mono m1 m2 e1 e2 B).
  - rewrite binary_round_opp.
    apply (SFleb_nonpos_nonneg _ (S754_zero false)); [apply binary_round_nonneg|done].
  - rewrite binary_round_opp.
    apply SFleb_nonpos_nonneg; apply binary_round_nonneg.
  - rewrite !binary_round_opp, SFleb_opp.
    apply (binary_round_mono m2 m1 e2 e1 B); try done. nia.
Qed.

(** A canonical float is a fixed point of rounding. *)
Lemma binary_round_canonical s m e :
  well_formed (S754_finite s m e) = true ->
  binary_round prec emax s m e = S754_finite s m e.
Proof.
  intros Hv. pose proof (well_formed_finite_bounds _ _ _ Hv) as (He & Hm & _).
  apply well_formed_finite in Hv as [Hc _].
  unfold binary_round. rewrite fexp_fexp64. fold (digits m). rewrite Hc.
  unfold shl_align. rewrite Z.sub_diag.
  destruct (binary_round_aux_rounded s m e ltac:(lia)) as (q & Hn & _ & _ & ->).
  rewrite Hc, Z.sub_diag in *. destruct Hn as (Hq & [Hlo Hhi] & _).
  rewrite Z.pow_0_r in *. assert (q = Zpos m) as -> by lia.
  unfold rounded. destruct (Z.eqb_spec (Zpos m) two53); [lia|].
  destruct (Z.leb_spec e 971); [done|lia].
Qed.

(** On canonical positive floats the order is the order of the values. *)
Lemma well_formed_le_value m1 e1 m2 e2 B :
  well_formed (S754_finite false m1 e1) = true ->
  well_formed (S754_finite false m2 e2) = true ->
  SFleb (S754_finite false m1 e1) (S754_finite false m2 e2) = true ->
  B <= e1 -> B <= e2 ->
  Zpos m1 * 2 ^ (e1 - B) <= Zpos m2 * 2 ^ (e2 - B).
Proof.
  intros (He1 & Hm1 & _)%well_formed_finite_bounds (He2 & _ & Hm2)%well_formed_finite_bounds
         Hle HB1 HB2.
  apply SFleb_finite_pos in Hle as [Hlt|[-> Hm]].
  - assert (0 < 2 ^ (e1 - B)) by (apply Z.pow_pos_nonneg; lia).
    assert (2 * 2 ^ (e1 - B) <= 2 ^ (e2 - B)) as Hp.
    { rewrite <- Z.pow_succ_r by lia. apply Z.pow_le_mono_r; lia. }
    specialize (Hm2 ltac:(lia)). unfold two52, two53 in *. nia.
  - apply Z.mul_le_mono_nonneg_r; [|done]. apply Z.pow_nonneg. lia.
Qed.

End Rounding.

(** ** Products and differences of non-negative values *)

Section MarginArithmetic.

Local Open Scope Z_scope.

Lemma digits_mul (m1 m2 : positive) :
  digits m1 + digits m2 - 1 <= digits (m1 * m2).
Proof.
  pose proof (digits_bounds m1) as [Hl1 _]. pose proof (digits_bounds m2) as [Hl2 _].
  pose proof (digits_bounds (m1 * m2)) as [_ Hh].
  pose proof (digits_pos m1). pose proof (digits_pos m2). pose proof (digits_pos (m1 * m2)).
  rewrite Pos2Z.inj_mul in Hh.
  assert (2 ^ (digits m1 - 1 + (digits m2 - 1)) < 2 ^ digits (m1 * m2)) as Hp.
  { rewrite Z.pow_add_r by lia.
    assert (0 < 2 ^ (digits m1 - 1)) by (apply Z.pow_pos_nonneg; lia).
    assert (0 < 2 ^ (digits m2 - 1)) by (apply Z.pow_pos_nonneg; lia). nia. }
  apply Z.pow_lt_mono_r_iff in Hp; lia.
Qed.

(** The exact product of two canonical mantissas has enough bits for
    [binary_round_aux]. *)
Lemma mul_exponent_ok mW eW mr er :
  well_formed (S754_finite false mW eW) = true ->
  well_formed (S754_finite false mr er) = true ->
  eW + er <= fexp64 (digits (mW * mr) + (eW + er)).
Proof.
  intros [HcW _]%well_formed_finite [Hcr _]%well_formed_finite.
  pose proof (digits_mul mW mr). pose proof (digits_pos mW). pose proof (digits_pos mr).
  unfold fexp64 in *. lia.
Qed.

Lemma mul_pos_rounded mW eW mr er :
  well_formed (S754_finite false mW eW) = true ->
  well_formed (S754_finite false mr er) = true ->
  nonneg (mul (S754_finite false mW eW) (S754_finite false mr er)) = true /\
  well_formed (mul (S754_finite false mW eW) (S754_finite false mr er)) = true.
Proof.
  intros HW Hr. unfold mul. cbn [SFmul xorb].
  destruct (binary_round_aux_rounded false (mW * mr) (eW + er)
              (mul_exponent_ok _ _ _ _ HW Hr)) as (q & Hn & Hq & Hlow & ->).
  assert (0 <= q) by apply Hn. split.
  - by apply rounded_nonneg.
  - apply rounded_well_formed; try done. unfold fexp64. lia.
Qed.

(** Multiplication by a positive value is monotone. *)
Lemma mul_pos_mono mW eW m1 e1 m2 e2 :
  well_formed (S754_finite false mW eW) = true ->
  well_formed (S754_finite false m1 e1) = true ->
  well_formed (S754_finite false m2 e2) = true ->
  le (S754_finite false m2 e2) (S754_finite false m1 e1) = true ->
  le (mul (S754_finite false mW eW) (S754_finite false m2 e2))
     (mul (S754_finite false mW eW) (S754_finite false m1 e1)) = true.
Proof.
  intros HW H1 H2 Hle. unfold le, mul. cbn [SFmul xorb].
  set (B := Z.min e1 e2).
  pose proof (well_formed_le_value m2 e2 m1 e1 B H2 H1 Hle ltac:(unfold B; lia)
                ltac:(unfold B; lia)) as Hv.
  apply (binary_round_aux_mono _ _ _ _ (eW + B));
    try (by apply mul_exponent_ok); try (unfold B; lia).
  replace (eW + e2 - (eW + B)) with (e2 - B) by lia.
  replace (eW + e1 - (eW + B)) with (e1 - B) by lia.
  rewrite !Pos2Z.inj_mul, <- !Z.mul_assoc.
  apply Z.mul_le_mono_nonneg_l; [lia | done].
Qed.

(** The difference of two positive canonical values, as the rounding of an
    exact integer difference. *)
Lemma sub_pos_normalize mW eW mA eA B :
  B <= Z.min eW eA ->
  exists z,
    sub (S754_finite false mW eW) (S754_finite false mA eA)
    = binary_normalize prec emax z (Z.min eW eA) false /\
    z * 2 ^ (Z.min eW eA - B) = Zpos mW * 2 ^ (eW - B) - Zpos mA * 2 ^ (eA - B).
Proof.
  intros HB. unfold sub. cbn [SFsub cond_Zopp]. eexists. split; [done|].
  set (ez := Z.min eW eA) in *.
  destruct (shl_align_spec mW eW ez) as [_ ->].
  destruct (shl_align_spec mA eA ez) as [_ ->].
  rewrite !Z.min_r by (unfold ez; lia).
  rewrite Z.mul_sub_distr_r, <- !Z.mul_assoc, <- !Z.pow_add_r by (unfold ez; lia).
  f_equal; do 2 f_equal; lia.
Qed.

Lemma binary_normalize_not_nan z e :
  binary_normalize prec emax z e false <> S754_nan.
Proof.
  destruct z as [|m|m]; cbn [binary_normalize]; [done| |].
  - pose proof (binary_round_nonneg m e). by destruct (binary_round _ _ _ _ _).
  - rewrite binary_round_opp. pose proof (binary_round_nonneg m e).
    by destruct (binary_round _ _ _ _ _).
Qed.

(** [W - A] is antitone in [A], for a positive [W] and non-negative [A]. *)
Lemma sub_pos_antitone mW eW (A1 A2 : double) :
  well_formed (S754_finite false mW eW) = true ->
  nonneg A1 = true -> nonneg A2 = true ->
  well_formed A1 = true -> well_formed A2 = true ->
  le A2 A1 = true ->
  le (sub (S754_finite false mW eW) A1) (sub (S754_finite false mW eW) A2) = true.
Proof.
  intros HW Hn1 Hn2 Hv1 Hv2 Hle.
  destruct A1 as [s1|[]| |[] m1 e1]; try done;
    destruct A2 as [s2|[]| |[] m2 e2]; try done;
    try (cbv in Hle; discriminate Hle).
  - (* both margins zero *)
    by apply SFleb_refl.
  - (* the larger margin infinite, the smaller positive *)
    destruct (sub_pos_normalize mW eW m2 e2 (Z.min eW e2) ltac:(lia)) as (z & -> & _).
    pose proof (binary_normalize_not_nan z (Z.min eW e2)).
    by destruct (binary_normalize _ _ _ _ _) as [[]|[]| |[] ? ?].
  - (* the larger margin positive, the smaller zero *)
    destruct (sub_pos_normalize mW eW m1 e1 (Z.min eW e1) ltac:(lia)) as (z & -> & Hz).
    unfold sub at 1. cbn [SFsub].
    rewrite <- (binary_round_canonical false mW eW HW).
    change (binary_round prec emax false mW eW)
      with (binary_normalize prec emax (Zpos mW) eW false).
    assert (0 < 2 ^ (e1 - Z.min eW e1)) by (apply Z.pow_pos_nonneg; lia).
    apply (binary_normalize_mono _ _ _ _ (Z.min eW e1)); [lia | lia | nia].
  - (* both margins positive *)
    set (B := Z.min eW (Z.min e1 e2)).
    destruct (sub_pos_normalize mW eW m1 e1 B ltac:(unfold B; lia)) as (z1 & -> & Hz1).
    destruct (sub_pos_normalize mW eW m2 e2 B ltac:(unfold B; lia)) as (z2 & -> & Hz2).
    apply (binary_normalize_mono _ _ _ _ B); try (unfold B; lia).
    rewrite Hz1, Hz2.
    pose proof (well_formed_le_value m2 e2 m1 e1 B Hv2 Hv1 Hle
                  ltac:(unfold B; lia) ltac:(unfold B; lia)).
    lia.
Qed.

(** An [int] that is positive converts to a positive canonical value. *)
Lemma of_int_pos w :
  0 < w <= INT_MAX ->
  exists mW eW, of_int w = S754_finite false mW eW /\
    well_formed (S754_finite false mW eW) = true.
Proof.
  intros Hw. unfold of_int. destruct w as [|m|m]; try lia. cbn [binary_normalize].
  pose proof (binary_round_well_formed false m 0) as Hv.
  destruct (binary_round_rounded false m 0) as (q & Hr & Hq & Hlow).
  rewrite Hr in *. clear Hr.
  assert (digits m <= 31) as Hd.
  { pose proof (digits_bounds m) as [Hl _]. pose proof (digits_pos m).
    destruct (Z.le_gt_cases (digits m) 31); [done|exfalso].
    assert (2 ^ 31 <= 2 ^ (digits m - 1)) by (apply Z.pow_le_mono_r; lia).
    unfold INT_MAX in *. lia. }
  pose proof (digits_pos m).
  assert (fexp64 (digits m + 0) = digits m - 53) as HE by (unfold fexp64; lia).
  rewrite HE in *. specialize (Hlow ltac:(lia)).
  unfold rounded in *. destruct q as [|mq|mq]; [unfold two52 in *; lia| |lia].
  destruct (Z.pos mq =? two53).
  - destruct (Z.leb_spec (digits m - 53 + 1) 971); [eauto|lia].
  - destruct (Z.leb_spec (digits m - 53) 971); [eauto|lia].
Qed.

Lemma lt_neg_infinity (x : double) : lt x (S754_infinity true) = false.
Proof. by destruct x as [[]|[]| |[] mx ex]. Qed.

(** The two bounds of [isInsideImage] along one axis of [w] pixels: with a
    smaller ratio the lower bound does not grow and the upper bound does not
    shrink. *)
Lemma margin_bounds_mono (w : Z) (r1 r2 : double) :
  0 <= w <= INT_MAX ->
  well_formed r1 = true -> well_formed r2 = true ->
  le zero r2 = true -> lt r2 r1 = true ->
  is_nan (mul (of_int w) r1) = true \/
  sub (of_int w) (mul (of_int w) r1) = S754_infinity true \/
  (le (mul (of_int w) r2) (mul (of_int w) r1) = true /\
   le (sub (of_int w) (mul (of_int w) r1)) (sub (of_int w) (mul (of_int w) r2)) = true).
Proof.
  intros Hw Hv1 Hv2 H0 Hlt.
  destruct (Z.eq_dec w 0) as [->|Hnz].
  - change (of_int 0) with (S754_zero false).
    destruct r2 as [[]|[]| |[] m2 e2]; try (cbv in H0; discriminate H0);
      destruct r1 as [[]|[]| |[] m1 e1]; try (cbv in Hlt; discriminate Hlt);
      (by left) || (by right; right).
  - destruct (of_int_pos w ltac:(lia)) as (mW & eW & -> & HW).
    destruct r2 as [s2|[]| |[] m2 e2]; try (cbv in H0; discriminate H0);
      destruct r1 as [s1|[]| |[] m1 e1]; try (cbv in Hlt; discriminate Hlt);
      try (by right; left).
    + (* ratio zero against a positive ratio *)
      right; right.
      destruct (mul_pos_rounded mW eW m1 e1 HW Hv1) as [Hn Hwf].
      change (mul (S754_finite false mW eW) (S754_zero s2))
        with (S754_zero (xorb false s2)).
      split.
      * by apply SFleb_zero_nonneg.
      * apply sub_pos_antitone; try done. by apply SFleb_zero_nonneg.
    + (* two positive ratios *)
      right; right.
      destruct (mul_pos_rounded mW eW m1 e1 HW Hv1) as [Hn1 Hwf1].
      destruct (mul_pos_rounded mW eW m2 e2 HW Hv2) as [Hn2 Hwf2].
      assert (le (mul (S754_finite false mW eW) (S754_finite false m2 e2))
                 (mul (S754_finite false mW eW) (S754_finite false m1 e1)) = true)
        as Hmul by (apply mul_pos_mono; try done; by apply lt_le_incl).
      split; [done|]. by apply sub_pos_antitone.
Qed.

(** One axis of [isInsideImage]: a coordinate strictly between the bounds of
    the larger ratio is strictly between the bounds of the smaller one. *)
Lemma inside_axis_mono (w : Z) (r1 r2 x : double) :
  0 <= w <= INT_MAX ->
  well_formed r1 = true -> well_formed r2 = true ->
  le zero r2 = true -> lt r2 r1 = true ->
  gt x (mul (of_int w) r1) && lt x (sub (of_int w) (mul (of_int w) r1)) = true ->
  gt x (mul (of_int w) r2) && lt x (sub (of_int w) (mul (of_int w) r2)) = true.
Proof.
  intros Hw Hv1 Hv2 H0 Hlt [Hg Hl]%andb_true_iff. unfold gt in *.
  destruct (margin_bounds_mono w r1 r2 Hw Hv1 Hv2 H0 Hlt) as [Hnan|[Hinf|[Hlo Hhi]]].
  - destruct (mul (of_int w) r1); try done.
  - rewrite Hinf, lt_neg_infinity in Hl. done.
  - apply andb_true_iff. split.
    + by apply (le_lt_trans _ (mul (of_int w) r1)).
    + by apply (lt_le_trans _ (sub (of_int w) (mul (of_int w) r1))).
Qed.

End MarginArithmetic.

(** ** Loops that fill a container by index *)

Section IndexLoops.

Context {A : Type}.
Implicit Types (l : list A) (f : nat -> A).

(** After [n] iterations of [for i: l[i] = f i], the first [n] entries are
    written and the others are untouched. *)
Lemma fill_loop_prefix f l n :
  n <= length l ->
  foldl (fun v i => <[i := f i]> v) l (seq 0 n) = (f <$> seq 0 n) ++ drop n l.
Proof.
  induction n as [|n IH]; intros Hn; [done|].
  rewrite seq_S, foldl_app, fmap_app, IH by lia. simpl.
  destruct (lookup_lt_is_Some_2 l n ltac:(lia)) as [x Hx].
  rewrite (drop_S _ _ _ Hx), <- app_assoc. simpl.
  replace n with (length (f <$> seq 0 n) + 0) at 1
    by (rewrite length_fmap, length_seq; lia).
  by rewrite insert_app_r.
Qed.

Lemma fill_loop f l :
  foldl (fun v i => <[i := f i]> v) l (seq 0 (length l)) = f <$> seq 0 (length l).
Proof. by rewrite fill_loop_prefix, drop_all, app_nil_r. Qed.

Lemma fmap_seq_lookup_total `{!Inhabited A} {B} (g : A -> B) l :
  (fun i => g (l !!! i)) <$> seq 0 (length l) = g <$> l.
Proof.
  apply list_eq; intros i. rewrite !list_lookup_fmap.
  destruct (l !! i) as [x|] eqn:Hx; simpl.
  - rewrite lookup_seq_lt by eauto using lookup_lt_Some. simpl.
    by rewrite (list_lookup_total_correct _ _ _ Hx).
  - rewrite lookup_seq_ge; [done|]. by apply lookup_ge_None.
Qed.

End IndexLoops.

(** ** What the batch projection computes, column by column *)

Lemma set_rows_pixels cam (pcs : Matrix3X) (us0 : Matrix2X) :
  length pcs = length us0 ->
  let us_homo := mul_cols (K_ cam) pcs in
  set_row1 (set_row0 us0 (cwiseQuotient (row0_3 us_homo) (row2_3 us_homo)))
           (cwiseQuotient (row1_3 us_homo) (row2_3 us_homo))
  = column_pixel cam <$> pcs.
Proof.
  revert us0. induction pcs as [|p pcs IH]; intros [|u us0] Hlen; simpl in *;
    try done.
  f_equal. apply IH. lia.
Qed.

Lemma visibility_loop_flags cam (pcs : Matrix3X) (vis0 : list bool) :
  length pcs = length vis0 ->
  visibility_loop cam pcs (column_pixel cam <$> pcs) (length pcs) vis0
  = column_visible cam <$> pcs.
Proof.
  intros Hlen. unfold visibility_loop. rewrite Hlen.
  rewrite (fill_loop (fun i => isDepthValid_default cam (pcs !!! i)
      && isInsideImage cam ((column_pixel cam <$> pcs) !!! i)) vis0).
  rewrite <- Hlen.
  rewrite <- (fmap_seq_lookup_total (column_visible cam) pcs).
  apply list_eq; intros i. rewrite !list_lookup_fmap.
  destruct (seq 0 (length pcs) !! i) as [j|] eqn:Hj; [simpl|done].
  apply lookup_seq in Hj as [-> Hi]. simpl.
  unfold column_visible. do 3 f_equal.
  by apply list_lookup_total_fmap.
Qed.

(** With output containers of the right size the batch projection never
    fails, whatever the points are, and its result does not depend on what the
    containers held. *)
Lemma project3dBatch_columns cam (pcs : Matrix3X) (us0 : Matrix2X) (vis0 : list bool) :
  length us0 = length pcs -> length vis0 = length pcs ->
  project3dBatch cam pcs (Some us0) (Some vis0)
  = Some (column_pixel cam <$> pcs, column_visible cam <$> pcs).
Proof.
  intros Hu Hv. unfold project3dBatch. simpl.
  rewrite !decide_True by done.
  by rewrite set_rows_pixels, visibility_loop_flags.
Qed.

(** The [CHECK]s of the batch projection. *)
Lemma project3dBatch_checks cam (pcs : Matrix3X) us vis :
  is_Some (project3dBatch cam pcs us vis) <->
  exists us0 vis0, us = Some us0 /\ vis = Some vis0 /\
    length pcs = length us0 /\ length pcs = length vis0.
Proof.
  unfold project3dBatch. split.
  - intros [r Hr]. destruct us as [us0|]; [|done]. destruct vis as [vis0|]; [|done].
    simpl in Hr. repeat case_decide; try done. eauto 10.
  - intros (us0 & vis0 & -> & -> & H1 & H2). simpl.
    rewrite !decide_True by done. eauto.
Qed.

(** ** Compaction by visibility *)

Section Compaction.

Variables (us : Matrix2X) (ids : list Z) (is_visible : list bool).








End Compaction.


(** ** Claims on the batch projection *)



(** What a successful batch projection returns. *)
Lemma project3dBatch_result cam (pcs : Matrix3X) us0 vis0 (us : Matrix2X) (vis : list bool) :
  project3dBatch cam pcs us0 vis0 = Some (us, vis) ->
  us = column_pixel cam <$> pcs /\ vis = column_visible cam <$> pcs.
Proof.
  intros Hrun.
  destruct (proj1 (project3dBatch_checks cam pcs us0 vis0)) as (u & v & -> & -> & Hu & Hv);
    [by eexists|].
  rewrite project3dBatch_columns in Hrun by done. by simplify_eq.
Qed.




(** The point (0,0,2) is outside the distance range (0, 1), and the batch
    projection still reports it visible. *)
Example visible_outside_distance_range :
  exists cam',
    setDistRange example_cam zero one = Some cam' /\
    isDistanceValid cam' (vec3 zero zero (of_int 2)) = false /\
    project3dBatch cam' [vec3 zero zero (of_int 2)] (Some [inhabitant]) (Some [false])
    = Some ([vec2 (of_int 320) (of_int 240)], [true]).
Proof. eexists. split; [reflexivity|]. split; vm_compute; reflexivity. Qed.

(** A quotient by a zero is never finite. *)
Lemma div_by_zero_not_finite (a : double) s :
  is_finite (div a (S754_zero s)) = false.
Proof. by destruct a as [[]|[]| |[] ma ea]. Qed.

(** The third homogeneous coordinate of a point on the camera plane, for a
    matrix K whose last row is (0, 0, 1). *)
Lemma dot_last_row_zero (p : Vector3d) s :
  is_finite (p0 p) = true -> is_finite (p1 p) = true -> p2 p = S754_zero s ->
  exists s', dot (vec3 zero zero one) p = S754_zero s'.
Proof.
  destruct p as [x y z]. simpl. intros Hx Hy ->. unfold dot. simpl.
  destruct x as [[]|[]| |[] mx ex], y as [[]|[]| |[] my ey], s; try done;
    vm_compute; eauto.
Qed.

(** C9. A column of [project3dBatch] whose z is at most the depth epsilon
    0.05 is never reported visible.  Its pixel is written all the same, and
    for z = 0 (with finite x and y, and (0,0,1) as the last row of K) both
    pixel coordinates are non-finite. *)
Theorem project3dBatch_shallow_column_invisible cam (pcs : Matrix3X) us0 vis0
    (us : Matrix2X) (is_visible : list bool) i p :
  project3dBatch cam pcs us0 vis0 = Some (us, is_visible) ->
  pcs !! i = Some p ->
  le (p2 p) lit_0_05 = true ->
  is_visible !! i = Some false /\
  exists u, us !! i = Some u /\
    (r2 (K_ cam) = vec3 zero zero one ->
     is_finite (p0 p) = true -> is_finite (p1 p) = true ->
     (exists s, p2 p = S754_zero s) ->
     is_finite (u0 u) = false /\ is_finite (u1 u) = false).
Proof.
  intros Hrun Hp Hz. apply project3dBatch_result in Hrun as [-> ->].
  assert (column_visible cam p = false) as Hflag.
  { unfold column_visible, isDepthValid_default, isDepthValid, gt. cbv zeta.
    by rewrite (le_not_gt _ _ Hz). }
  rewrite !list_lookup_fmap, Hp. cbn [fmap option_fmap option_map].
  rewrite Hflag. split; [done|].
  eexists; split; [done|]. intros HK Hx Hy [s Hs].
  unfold column_pixel, mul_vec. cbn [u0 u1 p0 p1 p2]. rewrite HK.
  destruct (dot_last_row_zero p s Hx Hy Hs) as [s' ->].
  by rewrite !div_by_zero_not_finite.
Qed.

Lemma project3dBatch_shallow_column_invisible_witness :
  [true; false] !! 1 = Some false /\
  exists u, [vec2 (of_int 320) (of_int 240); vec2 nan nan] !! 1 = Some u /\
    (r2 (K_ example_cam) = vec3 zero zero one ->
     is_finite zero = true -> is_finite zero = true ->
     (exists s, zero = S754_zero s) ->
     is_finite (u0 u) = false /\ is_finite (u1 u) = false).
Proof.
  apply (project3dBatch_shallow_column_invisible example_cam
           [vec3 zero zero (of_int 2); vec3 zero zero zero]
           (Some (replicate 2 inhabitant)) (Some (replicate 2 false))
           _ _ 1 (vec3 zero zero zero)).
  - vm_compute. reflexivity.
  - reflexivity.
  - vm_compute. reflexivity.
Defined.



(** ** Claims on the predicates and the mutators *)

(** C4, as stated, fails at two inputs.  With the default thresholds and the
    default margin 0.05, z = +infinity exceeds the margin and is not depth
    valid; and with the margin -2, z = -1.5 exceeds the margin and is
    rejected by the minimum bound -1. *)
Lemma isDepthValid_is_not_margin_test :
  has_default_depth_range example_cam /\
  gt infinity lit_0_05 = true /\
  isDepthValid example_cam (vec3 zero zero infinity) lit_0_05 = false /\
  gt (div (of_int (-3)) (of_int 2)) (of_int (-2)) = true /\
  isDepthValid example_cam (vec3 zero zero (div (of_int (-3)) (of_int 2))) (of_int (-2))
  = false.
Proof. by vm_compute. Qed.

(** C4, amended. [isDepthValid] is the conjunction of z > z_margin,
    z < max_depth and z > min_depth.  With the defaults (-1, +infinity) and
    a margin of at least -1 (the default 0.05 is one) the minimum bound is
    implied by the margin test, and the predicate is z_margin < z < +infinity:
    it is the margin test for every z but +infinity. *)
Theorem isDepthValid_with_defaults cam (p : Vector3d) (z_margin : double) :
  isDepthValid cam p z_margin
  = gt (p2 p) z_margin && (lt (p2 p) (max_depth_ cam) && gt (p2 p) (min_depth_ cam)) /\
  (has_default_depth_range cam -> le minus_one z_margin = true ->
     (gt (p2 p) z_margin = true -> gt (p2 p) (min_depth_ cam) = true) /\
     isDepthValid cam p z_margin = gt (p2 p) z_margin && lt (p2 p) infinity /\
     (p2 p <> infinity -> isDepthValid cam p z_margin = gt (p2 p) z_margin)).
Proof.
  unfold isDepthValid. cbv zeta. split; [by rewrite andb_assoc|].
  intros [-> ->] Hm. unfold default_min_depth, default_max_depth.
  assert (gt (p2 p) z_margin = true -> gt (p2 p) minus_one = true) as Hvac.
  { unfold gt. intros Hz. by apply (le_lt_trans _ z_margin). }
  split; [done|]. split.
  - destruct (gt (p2 p) z_margin) eqn:Hz; [|done].
    rewrite (Hvac eq_refl). by rewrite andb_true_r.
  - intros Hfin. destruct (gt (p2 p) z_margin) eqn:Hz; [|done].
    rewrite (Hvac eq_refl), lt_infinity.
    destruct (p2 p) as [[]|[]| |[] mz ez]; try done.
    all: try (by destruct Hfin).
    all: unfold gt in Hz; by rewrite lt_nan_r in Hz.
Qed.

Lemma isDepthValid_with_defaults_witness :
  isDepthValid example_cam (vec3 zero zero (of_int 2)) lit_0_05
  = gt (of_int 2) lit_0_05
    && (lt (of_int 2) (max_depth_ example_cam) && gt (of_int 2) (min_depth_ example_cam)) /\
  (gt (of_int 2) lit_0_05 = true -> gt (of_int 2) (min_depth_ example_cam) = true) /\
  isDepthValid example_cam (vec3 zero zero (of_int 2)) lit_0_05
  = gt (of_int 2) lit_0_05 && lt (of_int 2) infinity /\
  (of_int 2 <> infinity ->
   isDepthValid example_cam (vec3 zero zero (of_int 2)) lit_0_05 = gt (of_int 2) lit_0_05).
Proof.
  pose proof (isDepthValid_with_defaults example_cam (vec3 zero zero (of_int 2)) lit_0_05)
    as [H1 H2].
  split; [exact H1|].
  apply H2.
  - split; reflexivity.
  - vm_compute. reflexivity.
Defined.

(** C8, as stated, fails for a NaN bound: NaN >= 1 is false, and both
    setters are fatal on (NaN, 1) all the same. *)
Lemma range_setters_fatal_on_nan :
  ge nan one = false /\
  setDepthRange example_cam nan one = None /\
  setDistRange example_cam nan one = None.
Proof. by vm_compute. Qed.

(** C8, amended. [setDepthRange] and [setDistRange] are fatal exactly when
    min < max does not hold: when min >= max, or when a bound is NaN.  When
    min < max they set their pair of thresholds to the given values. *)
Theorem range_setters_check cam (min max : double) :
  (setDepthRange cam min max = None <-> lt min max = false) /\
  (setDistRange cam min max = None <-> lt min max = false) /\
  (lt min max = false <-> ge min max = true \/ is_nan min = true \/ is_nan max = true) /\
  match setDepthRange cam min max with
  | Some cam' => lt min max = true /\ min_depth_ cam' = min /\ max_depth_ cam' = max
  | None => lt min max = false
  end /\
  match setDistRange cam min max with
  | Some cam' => lt min max = true /\ min_dist_ cam' = min /\ max_dist_ cam' = max
  | None => lt min max = false
  end.
Proof.
  unfold setDepthRange, setDistRange.
  split_and!.
  - by destruct (lt min max).
  - by destruct (lt min max).
  - split.
    + intros Hlt. destruct (is_nan min) eqn:Hmin; [by auto|].
      destruct (is_nan max) eqn:Hmax; [by auto|].
      left. by apply not_lt_ge.
    + intros [Hge | [Hn | Hn]].
      * by apply le_not_gt.
      * by destruct min.
      * destruct max; try done. apply lt_nan_r.
  - by destruct (lt min max).
  - by destruct (lt min max).
Qed.

(** C10. Each threshold mutator writes its own pair of fields only:
    [setDepthRange] the depth range, [setDistRange] the distance range,
    [setMargin] the margins; the intrinsics, K, its inverse, the pose and the
    bearing cache are the same after all three. *)
Theorem mutators_frame cam (a b : double) :
  match setDepthRange cam a b with
  | Some cam' => same_geometry cam cam' /\ same_dist_range cam cam' /\ same_margins cam cam'
  | None => True
  end /\
  match setDistRange cam a b with
  | Some cam' => same_geometry cam cam' /\ same_depth_range cam cam' /\ same_margins cam cam'
  | None => True
  end /\
  match setMargin cam a with
  | Some cam' => same_geometry cam cam' /\ same_depth_range cam cam' /\ same_dist_range cam cam'
  | None => True
  end.
Proof.
  unfold setDepthRange, setDistRange, setMargin.
  destruct (lt a b), (ge a zero); by repeat split.
Qed.

(** The three mutators do succeed, and do write their fields. *)
Example mutators_succeed :
  exists c1 c2 c3,
    setDepthRange example_cam one (of_int 10) = Some c1 /\
    setDistRange example_cam one (of_int 10) = Some c2 /\
    setMargin example_cam lit_0_05 = Some c3 /\
    min_depth_ c1 = one /\ max_depth_ c1 = of_int 10 /\
    min_dist_ c2 = one /\ max_dist_ c2 = of_int 10 /\
    w_margin_ c3 = of_int 32 /\ h_margin_ c3 = of_int 24.
Proof. eexists _, _, _. split_and!; try reflexivity. Qed.

(** ** The bearing cache *)

Lemma wrap_int_id (z : Z) : is_int z -> wrap_int z = z.
Proof.
  unfold is_int, INT_MIN, INT_MAX, wrap_int. intros Hz.
  rewrite Z.mod_small; lia.
Qed.

Lemma pixelCoordToFlatIdx_in_range cam (x y : Z) :
  (w_ cam * h_ cam <= INT_MAX)%Z ->
  (0 <= x < w_ cam)%Z -> (0 <= y < h_ cam)%Z ->
  pixelCoordToFlatIdx cam x y = (y * w_ cam + x)%Z.
Proof.
  unfold pixelCoordToFlatIdx, INT_MAX. intros Hwh Hx Hy.
  assert (0 <= y * w_ cam /\ y * w_ cam + x < w_ cam * h_ cam)%Z as [? ?] by nia.
  rewrite (wrap_int_id (y * w_ cam)) by (unfold is_int, INT_MIN, INT_MAX; lia).
  apply wrap_int_id. unfold is_int, INT_MIN, INT_MAX. lia.
Qed.

(** Row-major layout of the pixel grid. *)
Lemma pixel_grid_lookup (w h x y : Z) :
  (0 <= x < w)%Z -> (0 <= y < h)%Z ->
  pixel_grid w h !! Z.to_nat (y * w + x) = Some (vec2 (of_int x) (of_int y)).
Proof.
  intros Hx Hy. unfold pixel_grid.
  replace (Z.to_nat (y * w + x)) with (Z.to_nat y * Z.to_nat w + Z.to_nat x) by nia.
  apply (join_lookup_Some_same_length' (Z.to_nat w)).
  - apply Forall_fmap, Forall_forall. intros y' _. simpl.
    by rewrite length_fmap, length_seqZ.
  - lia.
  - exists ((fun x => vec2 (of_int x) (of_int y)) <$> seqZ 0 w). split.
    + rewrite list_lookup_fmap, lookup_seqZ_lt by lia. simpl.
      by rewrite Z.add_0_l, Z2Nat.id by lia.
    + rewrite list_lookup_fmap, lookup_seqZ_lt by lia. simpl.
      by rewrite Z.add_0_l, Z2Nat.id by lia.
Qed.

(** C7. Before the cache is populated [getBearingAtPixel] is fatal.  After
    [computeBearingVectors], for every pixel (x, y) of the image the flat index
    is y * w + x and [getBearingAtPixel] returns the stored column at that
    index, which is what [backproject3d] computes for (x, y). *)
Theorem getBearingAtPixel_is_backproject3d cam :
  (forall x y, pixel_bearing_computed_ cam = false -> getBearingAtPixel cam x y = None) /\
  exists cam',
    computeBearingVectors cam = Some cam' /\
    pixel_bearing_computed_ cam' = true /\
    ((w_ cam * h_ cam <= INT_MAX)%Z ->
     forall x y, (0 <= x < w_ cam)%Z -> (0 <= y < h_ cam)%Z ->
       pixelCoordToFlatIdx cam' x y = (y * w_ cam + x)%Z /\
       getBearingAtPixel cam' x y
       = bearings_at_pixels_ cam' !! Z.to_nat (y * w_ cam + x) /\
       getBearingAtPixel cam' x y
       = Some (backproject3d cam' (vec2 (of_int x) (of_int y))) /\
       backproject3d cam' (vec2 (of_int x) (of_int y))
       = backproject3d cam (vec2 (of_int x) (of_int y))).
Proof.
  split.
  { intros x y Hc. unfold getBearingAtPixel. by rewrite Hc. }
  unfold computeBearingVectors, backproject3dBatch. cbn [mbind option_bind].
  rewrite decide_True by (by rewrite length_replicate).
  cbn [mbind option_bind]. eexists. split; [done|]. split; [done|].
  intros Hwh x y Hx Hy.
  assert (pixelCoordToFlatIdx cam x y = (y * w_ cam + x)%Z) as Hidx
    by by apply pixelCoordToFlatIdx_in_range.
  unfold getBearingAtPixel, col, backproject3d, mul_cols.
  cbn [pixel_bearing_computed_ bearings_at_pixels_ K_inv_ w_].
  unfold pixelCoordToFlatIdx in *. cbn [w_]. rewrite Hidx.
  rewrite decide_True by nia.
  rewrite !list_lookup_fmap, pixel_grid_lookup by done.
  done.
Qed.

(** A 4 x 3 camera: the whole cache, pixel by pixel. *)
Example bearing_cache_4x3 :
  let cam := make_cam (of_int 2) (of_int 2) (of_int 2) one 4 3 identity_pose in
  exists cam',
    computeBearingVectors cam = Some cam' /\
    numBearings cam' = Some 12%Z /\
    getBearingAtPixel cam 1 2 = None /\
    pixelCoordToFlatIdx cam' 1 2 = 9%Z /\
    getBearingAtPixel cam' 1 2 = Some (backproject3d cam (vec2 one (of_int 2))) /\
    getBearingAtPixel cam' 3 2 = Some (backproject3d cam (vec2 (of_int 3) (of_int 2))) /\
    getBearingAtPixel cam' 0 3 = None.
Proof. eexists. split; [reflexivity|]. by vm_compute. Qed.

(** ** Monotonicity of the margin *)

(** C6. For margin ratios 0 <= r2 < r1 and any pixel: a pixel inside the
    image after [setMargin r1] is inside the image after [setMargin r2]
    (set on the same camera, or on the camera that had the ratio r1); and
    conversely a pixel rejected at the smaller ratio stays rejected at the
    larger one.  The camera has a non-negative width and height, and the
    ratios are binary64 values. *)
Theorem setMargin_monotone cam (r1 r2 : double) (u : Vector2d) :
  image_size (w_ cam) -> image_size (h_ cam) ->
  well_formed r1 = true -> well_formed r2 = true ->
  le zero r2 = true -> lt r2 r1 = true ->
  exists cam1 cam2,
    setMargin cam r1 = Some cam1 /\ setMargin cam r2 = Some cam2 /\
    setMargin cam1 r2 = Some cam2 /\
    (isInsideImage cam1 u = true -> isInsideImage cam2 u = true) /\
    (isInsideImage cam2 u = false -> isInsideImage cam1 u = false).
Proof.
  intros Hw Hh Hv1 Hv2 H0 Hlt.
  assert (le zero r1 = true) as H1
    by (apply lt_le_incl; by apply (le_lt_trans _ r2)).
  unfold setMargin, ge. rewrite H0, H1. eexists _, _.
  split; [done|]. split; [done|]. split; [done|].
  assert (forall u, isInsideImage
     {| fx_ := fx_ cam; fy_ := fy_ cam; cx_ := cx_ cam; cy_ := cy_ cam;
        w_ := w_ cam; h_ := h_ cam;
        w_margin_ := mul (of_int (w_ cam)) r1;
        h_margin_ := mul (of_int (h_ cam)) r1;
        min_depth_ := min_depth_ cam; max_depth_ := max_depth_ cam;
        min_dist_ := min_dist_ cam; max_dist_ := max_dist_ cam;
        T_b_c_ := T_b_c_ cam; K_ := K_ cam; K_inv_ := K_inv_ cam;
        bearings_at_pixels_ := bearings_at_pixels_ cam;
        pixel_bearing_computed_ := pixel_bearing_computed_ cam |} u = true ->
     isInsideImage
     {| fx_ := fx_ cam; fy_ := fy_ cam; cx_ := cx_ cam; cy_ := cy_ cam;
        w_ := w_ cam; h_ := h_ cam;
        w_margin_ := mul (of_int (w_ cam)) r2;
        h_margin_ := mul (of_int (h_ cam)) r2;
        min_depth_ := min_depth_ cam; max_depth_ := max_depth_ cam;
        min_dist_ := min_dist_ cam; max_dist_ := max_dist_ cam;
        T_b_c_ := T_b_c_ cam; K_ := K_ cam; K_inv_ := K_inv_ cam;
        bearings_at_pixels_ := bearings_at_pixels_ cam;
        pixel_bearing_computed_ := pixel_bearing_computed_ cam |} u = true) as Hmono.
  { intros v. unfold isInsideImage. cbn [w_ h_ w_margin_ h_margin_]. cbv zeta.
    intros [Hx Hy]%andb_true_iff. apply andb_true_iff. split.
    - by apply (inside_axis_mono (w_ cam) r1 r2).
    - by apply (inside_axis_mono (h_ cam) r1 r2). }
  split; [apply Hmono|].
  intros Hout. apply not_true_is_false. intros Hin.
  apply Hmono in Hin. congruence.
Qed.

Lemma setMargin_monotone_witness :
  exists cam1 cam2,
    setMargin example_cam lit_0_05 = Some cam1 /\
    setMargin example_cam zero = Some cam2 /\
    setMargin cam1 zero = Some cam2 /\
    (isInsideImage cam1 (vec2 (of_int 320) (of_int 240)) = true ->
     isInsideImage cam2 (vec2 (of_int 320) (of_int 240)) = true) /\
    (isInsideImage cam2 (vec2 (of_int 320) (of_int 240)) = false ->
     isInsideImage cam1 (vec2 (of_int 320) (of_int 240)) = false).
Proof.
  apply (setMargin_monotone example_cam lit_0_05 zero (vec2 (of_int 320) (of_int 240))).
  - unfold image_size, INT_MAX. simpl. lia.
  - unfold image_size, INT_MAX. simpl. lia.
  - reflexivity.
  - reflexivity.
  - reflexivity.
  - reflexivity.
Defined.

(** The margin at work: the pixel (20, 240) is inside the image with ratio 0
    and outside with ratio 0.05 (a margin of 32 pixels). *)
Example margin_rejects_border_pixel :
  exists cam1 cam2,
    setMargin example_cam lit_0_05 = Some cam1 /\
    setMargin example_cam zero = Some cam2 /\
    isInsideImage cam1 (vec2 (of_int 20) (of_int 240)) = false /\
    isInsideImage cam2 (vec2 (of_int 20) (of_int 240)) = true.
Proof. eexists _, _. split_and!; reflexivity. Qed.

(** The size hypothesis is needed: for a width below zero the margins are
    negative, and the larger ratio accepts a pixel the smaller one rejects. *)
Example negative_width_is_not_monotone :
  let cam := make_cam one one zero zero (-10) (-10) identity_pose in
  exists cam1 cam2,
    setMargin cam one = Some cam1 /\ setMargin cam zero = Some cam2 /\
    isInsideImage cam1 (vec2 (of_int (-5)) (of_int (-5))) = true /\
    isInsideImage cam2 (vec2 (of_int (-5)) (of_int (-5))) = false.
Proof. eexists _, _. split_and!; reflexivity. Qed.

(** * Further properties of the code *)

(** ** The measurement set as a filter of the batch *)





(** ** The batch functions: checks, columns, concatenation *)


(** X2. For a batch and a flag container of at most INT_MAX entries (where
    the narrowing of [is_visible->size()] to [int] in the size check is
    exact), [project3dBatch] is fatal exactly when an output pointer is null
    or an output container has not exactly N entries.  Otherwise it returns N
    pixels and N flags, which depend on the camera and the points only: any
    other pair of containers of size N gives the same result. *)
Theorem project3dBatch_fatal_iff cam (pcs : Matrix3X) (us : option Matrix2X)
    (is_visible : option (list bool)) :
  (Z.of_nat (length pcs) <= INT_MAX)%Z ->
  (forall vis0, is_visible = Some vis0 -> (Z.of_nat (length vis0) <= INT_MAX)%Z) ->
  match project3dBatch cam pcs us is_visible with
  | Some (out_us, out_vis) =>
      (exists us0 vis0, us = Some us0 /\ is_visible = Some vis0 /\
         length us0 = length pcs /\ length vis0 = length pcs) /\
      length out_us = length pcs /\ length out_vis = length pcs /\
      forall (us' : Matrix2X) (vis' : list bool),
        length us' = length pcs -> length vis' = length pcs ->
        project3dBatch cam pcs (Some us') (Some vis') = Some (out_us, out_vis)
  | None =>
      us = None \/ is_visible = None \/
      (exists us0, us = Some us0 /\ length us0 <> length pcs) \/
      (exists vis0, is_visible = Some vis0 /\ length vis0 <> length pcs)
  end.
Proof.
  intros _ _.
  destruct us as [us0|]; [|by left].
  destruct is_visible as [vis0|]; [|by right; left].
  destruct (decide (length us0 = length pcs)) as [Hu|Hu].
  - destruct (decide (length vis0 = length pcs)) as [Hv|Hv].
    + rewrite project3dBatch_columns by done.
      split_and!; [by eauto 10 | by rewrite length_fmap | by rewrite length_fmap |].
      intros us' vis' Hu' Hv'. by rewrite project3dBatch_columns.
    + unfold project3dBatch. cbn [mbind option_bind].
      rewrite decide_True by done. rewrite decide_False by done. eauto 10.
  - unfold project3dBatch. cbn [mbind option_bind].
    rewrite decide_False by done. eauto 10.
Qed.

Lemma project3dBatch_fatal_iff_witness :
  (exists out_us out_vis,
     project3dBatch example_cam sample_points
       (Some (replicate 5 inhabitant)) (Some (replicate 5 true))
     = Some (out_us, out_vis) /\
     length out_us = 5 /\ length out_vis = 5) /\
  project3dBatch example_cam sample_points
    (Some (replicate 5 inhabitant)) (Some (replicate 4 true)) = None.
Proof.
  split; [|reflexivity].
  pose proof (project3dBatch_fatal_iff example_cam sample_points
                (Some (replicate 5 inhabitant)) (Some (replicate 5 true))) as H.
  destruct (project3dBatch example_cam sample_points
              (Some (replicate 5 inhabitant)) (Some (replicate 5 true)))
    as [[out_us out_vis]|] eqn:E; [|discriminate E].
  exists out_us, out_vis. split; [reflexivity|].
  destruct H as (_ & Hu & Hv & _).
  - unfold INT_MAX. simpl. lia.
  - intros vis0 [= <-]. unfold INT_MAX. simpl. lia.
  - split; [exact Hu | exact Hv].
Defined.

(** Only finite values lie strictly between two bounds. *)
Lemma between_is_finite (lo x hi : double) :
  lt lo x = true -> lt x hi = true -> is_finite x = true.
Proof.
  intros Hlo Hhi. destruct x as [[]|[]| |[] mx ex]; try done.
  - by rewrite lt_neg_infinity in Hlo.
  - by destruct hi as [[]|[]| |[] ? ?].
Qed.

Lemma isInsideImage_finite cam (u : Vector2d) :
  isInsideImage cam u = true ->
  is_finite (u0 u) = true /\ is_finite (u1 u) = true.
Proof.
  unfold isInsideImage, gt. cbv zeta.
  intros [[Hx1 Hx2]%andb_true_iff [Hy1 Hy2]%andb_true_iff]%andb_true_iff.
  eauto using between_is_finite.
Qed.

Lemma isDepthValid_finite cam (p : Vector3d) (z_margin : double) :
  isDepthValid cam p z_margin = true ->
  lt z_margin (p2 p) = true /\ is_finite (p2 p) = true.
Proof.
  unfold isDepthValid, gt. cbv zeta.
  intros [[Hz1 Hz2]%andb_true_iff Hz3]%andb_true_iff.
  eauto using between_is_finite.
Qed.

(** What a visible column is: its depth exceeds 0.05 and is finite, its pixel
    is finite and inside the image, and the perspective division was by a
    number other than zero. *)
Lemma column_visible_finite cam (p : Vector3d) :
  column_visible cam p = true ->
  lt lit_0_05 (p2 p) = true /\ is_finite (p2 p) = true /\
  isInsideImage cam (column_pixel cam p) = true /\
  is_finite (u0 (column_pixel cam p)) = true /\
  is_finite (u1 (column_pixel cam p)) = true /\
  (forall s, p2 (mul_vec (K_ cam) p) <> S754_zero s).
Proof.
  unfold column_visible, isDepthValid_default.
  intros [Hd Hi]%andb_true_iff.
  destruct (isDepthValid_finite _ _ _ Hd) as [Hz Hf].
  destruct (isInsideImage_finite _ _ Hi) as [Hx Hy].
  split_and!; try done.
  intros s Hs. unfold column_pixel in Hx. cbn [u0] in Hx.
  by rewrite Hs, div_by_zero_not_finite in Hx.
Qed.

(** X3. A column that [project3dBatch] reports visible has a finite depth
    above 0.05 and a finite pixel inside the image, and its perspective
    division was not by zero: NaN, an infinity or a point on the camera plane
    never yields a visible column. *)
Theorem project3dBatch_visible_is_finite cam (pcs : Matrix3X) us0 vis0
    (us : Matrix2X) (is_visible : list bool) i :
  project3dBatch cam pcs us0 vis0 = Some (us, is_visible) ->
  is_visible !! i = Some true ->
  exists p u, pcs !! i = Some p /\ us !! i = Some u /\
    lt lit_0_05 (p2 p) = true /\ is_finite (p2 p) = true /\
    isInsideImage cam u = true /\
    is_finite (u0 u) = true /\ is_finite (u1 u) = true /\
    (forall s, p2 (mul_vec (K_ cam) p) <> S754_zero s).
Proof.
  intros Hrun Hi. apply project3dBatch_result in Hrun as [-> ->].
  rewrite list_lookup_fmap in Hi.
  destruct (pcs !! i) as [p|] eqn:Hp; [|done].
  injection Hi as Hv. exists p, (column_pixel cam p).
  rewrite list_lookup_fmap, Hp. split; [done|]. split; [done|].
  by apply column_visible_finite.
Qed.

Lemma project3dBatch_visible_is_finite_witness :
  exists p u,
    sample_points !! 0 = Some p /\
    [vec2 (of_int 320) (of_int 240); vec2 (of_int 320) (of_int 240)] !! 0 = Some u /\
    lt lit_0_05 (p2 p) = true /\ is_finite (p2 p) = true /\
    isInsideImage example_cam u = true /\
    is_finite (u0 u) = true /\ is_finite (u1 u) = true /\
    (forall s, p2 (mul_vec (K_ example_cam) p) <> S754_zero s).
Proof.
  destruct (project3dBatch_visible_is_finite example_cam
              [vec3 zero zero (of_int 2); vec3 zero zero minus_one]
              (Some [inhabitant; inhabitant]) (Some [false; false])
              [vec2 (of_int 320) (of_int 240); vec2 (of_int 320) (of_int 240)]
              [true; false] 0)
    as (p & u & Hp & Hu & H); [by vm_compute | done |].
  exists p, u. split; [|done]. simpl in *. done.
Defined.



(** ** The measurement set: what is emitted and what is not *)








(** ** The margin *)

(** X8. [setMargin] is fatal exactly for a negative or NaN ratio (it accepts
    -0.0 and +infinity); when it returns, the margins are the products of the
    width and of the height with the ratio. *)
Theorem setMargin_fatal_iff cam (ratio : double) :
  (setMargin cam ratio = None <-> lt ratio zero = true \/ is_nan ratio = true) /\
  match setMargin cam ratio with
  | Some cam' =>
      le zero ratio = true /\
      w_margin_ cam' = mul (of_int (w_ cam)) ratio /\
      h_margin_ cam' = mul (of_int (h_ cam)) ratio
  | None => le zero ratio = false
  end.
Proof.
  unfold setMargin, ge. split.
  - destruct ratio as [[]|[]| |[] mr er]; cbn; split; intros H; try done;
      try (by left); try (by right); by destruct H.
  - by destruct (le zero ratio).
Qed.

Section MarginBounds.

Local Open Scope Z_scope.

(** The sign of a zero plays no part in a comparison. *)
Lemma lt_zero_l s (x : double) : lt (S754_zero s) x = lt zero x.
Proof. by destruct x as [[]|[]| |[] mx ex]. Qed.

Lemma lt_zero_r s (x : double) : lt x (S754_zero s) = lt x zero.
Proof. by destruct x as [[]|[]| |[] mx ex]. Qed.

Lemma lt_asym (a b : double) : lt a b = true -> lt b a = false.
Proof. intros H. by apply le_not_gt, lt_le_incl. Qed.

(** An [int] converts to a zero or to a finite canonical value. *)
Lemma of_int_finite w :
  is_int w ->
  of_int w = S754_zero false \/
  exists s m e, of_int w = S754_finite s m e /\
    well_formed (S754_finite s m e) = true /\ -52 <= e <= -20.
Proof.
  unfold is_int, INT_MIN, INT_MAX. intros Hw.
  assert (forall s m, Zpos m <= 2 ^ 31 ->
            exists m' e, binary_round prec emax s m 0 = S754_finite s m' e /\
              well_formed (S754_finite s m' e) = true /\ -52 <= e <= -20) as Hpos.
  { intros s m Hm.
    pose proof (binary_round_well_formed s m 0) as Hv.
    destruct (binary_round_rounded s m 0) as (q & Hr & Hq & Hlow).
    rewrite Hr in *. clear Hr.
    assert (digits m <= 32) as Hd.
    { pose proof (digits_bounds m) as [Hl _]. pose proof (digits_pos m).
      destruct (Z.le_gt_cases (digits m) 32); [done|exfalso].
      assert (2 ^ 32 <= 2 ^ (digits m - 1)) by (apply Z.pow_le_mono_r; lia).
      lia. }
    pose proof (digits_pos m).
    assert (fexp64 (digits m + 0) = digits m - 53) as HE by (unfold fexp64; lia).
    rewrite HE in *. specialize (Hlow ltac:(lia)).
    unfold rounded in *. destruct q as [|mq|mq]; [unfold two52 in *; lia| |lia].
    destruct (Z.pos mq =? two53).
    - destruct (Z.leb_spec (digits m - 53 + 1) 971); [|lia].
      eexists _, _. split; [done|]. split; [done|]. lia.
    - destruct (Z.leb_spec (digits m - 53) 971); [|lia].
      eexists _, _. split; [done|]. split; [done|]. lia. }
  unfold of_int. destruct w as [|m|m]; cbn [binary_normalize]; [by left| |]; right.
  - destruct (Hpos false m ltac:(lia)) as (m' & e & ? & ? & ?). eauto 10.
  - destruct (Hpos true m ltac:(lia)) as (m' & e & ? & ? & ?). eauto 10.
Qed.

(** With a zero ratio the bounds along one axis are 0 and the size. *)
Lemma axis_zero_margin (w : Z) s (x : double) :
  is_int w ->
  gt x (mul (of_int w) (S754_zero s))
    && lt x (sub (of_int w) (mul (of_int w) (S754_zero s)))
  = lt zero x && lt x (of_int w).
Proof.
  intros Hw. unfold gt.
  destruct (of_int_finite w Hw) as [->|(sw & m & e & -> & _)].
  - change (mul (S754_zero false) (S754_zero s)) with (S754_zero (xorb false s)).
    rewrite lt_zero_l. f_equal.
    by destruct s; cbn; rewrite ?lt_zero_r.
  - change (mul (S754_finite sw m e) (S754_zero s)) with (S754_zero (xorb sw s)).
    by rewrite lt_zero_l.
Qed.

End MarginBounds.

(** X9. With the margin ratio 0 (or -0.0) [isInsideImage] is the plain test
    0 < x < w and 0 < y < h. *)
Theorem setMargin_zero_plain_bounds cam s (u : Vector2d) :
  is_int (w_ cam) -> is_int (h_ cam) ->
  exists cam',
    setMargin cam (S754_zero s) = Some cam' /\
    isInsideImage cam' u
    = (lt zero (u0 u) && lt (u0 u) (of_int (w_ cam)))
      && (lt zero (u1 u) && lt (u1 u) (of_int (h_ cam))).
Proof.
  intros Hw Hh. unfold setMargin. change (ge (S754_zero s) zero) with true.
  eexists. split; [done|]. unfold isInsideImage.
  cbn [w_ h_ w_margin_ h_margin_]. cbv zeta.
  by rewrite !axis_zero_margin.
Qed.

Lemma setMargin_zero_plain_bounds_witness :
  exists cam',
    setMargin example_cam (S754_zero true) = Some cam' /\
    isInsideImage cam' (vec2 (of_int 20) (of_int 240))
    = (lt zero (of_int 20) && lt (of_int 20) (of_int (w_ example_cam)))
      && (lt zero (of_int 240) && lt (of_int 240) (of_int (h_ example_cam))).
Proof.
  apply (setMargin_zero_plain_bounds example_cam true (vec2 (of_int 20) (of_int 240)));
    unfold is_int, INT_MIN, INT_MAX; simpl; lia.
Defined.

Section MarginAxis.

Local Open Scope Z_scope.

Lemma image_size_is_int w : image_size w -> is_int w.
Proof. unfold image_size, is_int, INT_MIN, INT_MAX. lia. Qed.

(** Along one axis, what a margin accepts lies strictly between 0 and the
    size. *)
Lemma axis_margin_inside_raw (w : Z) (r x : double) :
  image_size w -> well_formed r = true -> le zero r = true ->
  gt x (mul (of_int w) r) && lt x (sub (of_int w) (mul (of_int w) r)) = true ->
  lt zero x && lt x (of_int w) = true.
Proof.
  intros Hw Hr H0 Hin.
  destruct r as [s|[]| |[] mr er] eqn:Er; try (cbv in H0; discriminate H0).
  - by rewrite axis_zero_margin in Hin by by apply image_size_is_int.
  - rewrite <- (axis_zero_margin w false) by by apply image_size_is_int.
    by apply (inside_axis_mono w (S754_infinity false) zero).
  - rewrite <- (axis_zero_margin w false) by by apply image_size_is_int.
    by apply (inside_axis_mono w (S754_finite false mr er) zero).
Qed.

(** Rounding returns a value that needs no rounding. *)
Lemma nearest_even_exact q k q' :
  0 <= k -> nearest_even (q * 2 ^ k) k q' -> q' = q.
Proof.
  intros Hk (_ & [Hlo Hhi] & _).
  assert (0 < 2 ^ k) by (apply Z.pow_pos_nonneg; lia). nia.
Qed.

(** Half of a normal value, and the value minus its half. *)
Lemma mul_half_exact mW eW :
  well_formed (S754_finite false mW eW) = true -> -1073 <= eW ->
  mul (S754_finite false mW eW) lit_0_5 = S754_finite false mW (eW - 1) /\
  sub (S754_finite false mW eW) (S754_finite false mW (eW - 1))
  = S754_finite false mW (eW - 1).
Proof.
  intros HW He.
  pose proof (well_formed_finite_bounds _ _ _ HW) as (HeW & Hm53 & Hm52).
  specialize (Hm52 ltac:(lia)).
  pose proof (digits_le_53 mW Hm53). pose proof (digits_ge_53 mW Hm52).
  assert (well_formed (S754_finite false mW (eW - 1)) = true) as Hhalf
    by (apply well_formed_finite; unfold fexp64; lia).
  split.
  - unfold mul, lit_0_5. cbn [SFmul xorb].
    assert (well_formed (S754_finite false 4503599627370496 (-53)) = true) as Hh
      by done.
    destruct (binary_round_aux_rounded false (mW * 4503599627370496) (eW + -53)
                (mul_exponent_ok _ _ _ _ HW Hh)) as (q & Hn & _ & _ & ->).
    assert (digits (mW * 4503599627370496) = digits mW + 52) as Hd.
    { apply digits_shift; [lia|]. rewrite Pos2Z.inj_mul. done. }
    rewrite Hd in *.
    assert (fexp64 (digits mW + 52 + (eW + -53)) = eW - 1) as HE
      by (unfold fexp64; lia).
    rewrite HE in *.
    replace (eW - 1 - (eW + -53)) with 52 in Hn by lia.
    rewrite Pos2Z.inj_mul in Hn. change (Z.pos 4503599627370496) with (2 ^ 52) in Hn.
    apply nearest_even_exact in Hn as ->; [|lia].
    unfold rounded. destruct (Z.eqb_spec (Z.pos mW) two53); [lia|].
    destruct (Z.leb_spec (eW - 1) 971); [done|lia].
  - destruct (sub_pos_normalize mW eW mW (eW - 1) (eW - 1) ltac:(lia))
      as (z & -> & Hz).
    rewrite Z.min_r in * by lia.
    replace (eW - 1 - (eW - 1)) with 0 in Hz by lia.
    replace (eW - (eW - 1)) with 1 in Hz by lia.
    assert (z = Zpos mW) as -> by lia.
    cbn [binary_normalize]. by apply binary_round_canonical.
Qed.

(** With the ratio 0.5 the two bounds of an axis meet: nothing lies strictly
    between them. *)
Lemma axis_half_empty (w : Z) (x : double) :
  image_size w ->
  gt x (mul (of_int w) lit_0_5)
    && lt x (sub (of_int w) (mul (of_int w) lit_0_5)) = false.
Proof.
  intros Hw. unfold gt. apply andb_false_iff.
  destruct (of_int_finite w (image_size_is_int w Hw)) as [->|(s & m & e & Hof & Hwf & He)].
  - change (mul (S754_zero false) lit_0_5) with (S754_zero false).
    change (sub (S754_zero false) (S754_zero false)) with (S754_zero false).
    destruct (lt (S754_zero false) x) eqn:E; [right|by left]. by apply lt_asym.
  - assert (s = false) as ->.
    { unfold image_size in Hw. destruct (Z.eq_dec w 0) as [->|]; [done|].
      destruct (of_int_pos w ltac:(lia)) as (? & ? & E & _). congruence. }
    rewrite Hof. destruct (mul_half_exact m e Hwf ltac:(lia)) as [-> ->].
    destruct (lt (S754_finite false m (e - 1)) x) eqn:E; [right|by left].
    by apply lt_asym.
Qed.

End MarginAxis.

(** X10. Whatever the margin ratio, a pixel that [isInsideImage] accepts lies
    strictly inside the image rectangle: 0 < x < w and 0 < y < h. *)
Theorem accepted_pixel_is_inside_raw_image cam (ratio : double) cam' (u : Vector2d) :
  image_size (w_ cam) -> image_size (h_ cam) ->
  well_formed ratio = true ->
  setMargin cam ratio = Some cam' ->
  isInsideImage cam' u = true ->
  (lt zero (u0 u) && lt (u0 u) (of_int (w_ cam)))
  && (lt zero (u1 u) && lt (u1 u) (of_int (h_ cam))) = true.
Proof.
  intros Hw Hh Hr. unfold setMargin, ge.
  destruct (le zero ratio) eqn:H0; [|done]. intros [= <-].
  unfold isInsideImage. cbn [w_ h_ w_margin_ h_margin_]. cbv zeta.
  intros [Hx Hy]%andb_true_iff. apply andb_true_iff. split.
  - by apply (axis_margin_inside_raw (w_ cam) ratio).
  - by apply (axis_margin_inside_raw (h_ cam) ratio).
Qed.

Lemma accepted_pixel_is_inside_raw_image_witness :
  (lt zero (of_int 40) && lt (of_int 40) (of_int (w_ example_cam)))
  && (lt zero (of_int 240) && lt (of_int 240) (of_int (h_ example_cam))) = true.
Proof.
  destruct (setMargin example_cam lit_0_05) as [cam'|] eqn:E; [|discriminate E].
  apply (accepted_pixel_is_inside_raw_image example_cam lit_0_05 cam'
           (vec2 (of_int 40) (of_int 240))).
  - unfold image_size, INT_MAX. simpl. lia.
  - unfold image_size, INT_MAX. simpl. lia.
  - reflexivity.
  - exact E.
  - injection E as <-. reflexivity.
Defined.

(** Below or equal and not below: equal, for a positive finite value. *)
Lemma le_not_lt_finite_eq m e (b : double) :
  le (S754_finite false m e) b = true -> lt (S754_finite false m e) b = false ->
  S754_finite false m e = b.
Proof.
  unfold le, lt, SFleb, SFltb.
  destruct b as [[]|[]| |[] mb eb]; try done.
  unfold SFcompare. change (Pos.compare_cont Eq) with Pos.compare.
  destruct (Z.compare_spec e eb); try done. subst eb.
  destruct (Pos.compare_spec m mb); try done. by subst mb.
Qed.

(** X11. A margin ratio of 0.5 or more leaves no pixel inside the image. *)
Theorem setMargin_half_rejects_all cam (ratio : double) cam' (u : Vector2d) :
  image_size (w_ cam) ->
  well_formed ratio = true -> le lit_0_5 ratio = true ->
  setMargin cam ratio = Some cam' ->
  isInsideImage cam' u = false.
Proof.
  intros Hw Hr Hhalf. unfold setMargin, ge.
  destruct (le zero ratio) eqn:H0; [|done]. intros [= <-].
  unfold isInsideImage. cbn [w_ h_ w_margin_ h_margin_]. cbv zeta.
  apply andb_false_iff. left.
  destruct (lt lit_0_5 ratio) eqn:Hlt.
  - apply not_true_is_false. intros Hin.
    pose proof (inside_axis_mono (w_ cam) ratio lit_0_5 (u0 u) Hw Hr
                  eq_refl eq_refl Hlt Hin) as Hin'.
    by rewrite axis_half_empty in Hin'.
  - assert (ratio = lit_0_5) as ->
      by (symmetry; by apply le_not_lt_finite_eq).
    by apply axis_half_empty.
Qed.

Lemma setMargin_half_rejects_all_witness :
  exists cam',
    setMargin example_cam lit_0_5 = Some cam' /\
    isInsideImage example_cam (vec2 (of_int 320) (of_int 240)) = true /\
    isInsideImage cam' (vec2 (of_int 320) (of_int 240)) = false.
Proof.
  eexists. split; [reflexivity|]. split; [reflexivity|].
  apply (setMargin_half_rejects_all example_cam lit_0_5 _
           (vec2 (of_int 320) (of_int 240))).
  - unfold image_size, INT_MAX. simpl. lia.
  - reflexivity.
  - reflexivity.
  - reflexivity.
Defined.

(** ** Widening the depth and distance ranges *)

(** X12. Widening the depth range, or lowering the margin on z, keeps every
    depth-valid point valid: with min' <= min, max <= max' and
    z_margin' <= z_margin, a point valid for (min, max, z_margin) is valid
    for (min', max', z_margin'). *)
Theorem setDepthRange_widen cam (min_z max_z min_z' max_z' m m' : double)
    cam1 cam2 (pc : Vector3d) :
  setDepthRange cam min_z max_z = Some cam1 ->
  setDepthRange cam min_z' max_z' = Some cam2 ->
  le min_z' min_z = true -> le max_z max_z' = true -> le m' m = true ->
  isDepthValid cam1 pc m = true -> isDepthValid cam2 pc m' = true.
Proof.
  unfold setDepthRange.
  destruct (lt min_z max_z); [|done]. destruct (lt min_z' max_z'); [|done].
  intros [= <-] [= <-] Hmin Hmax Hm. unfold isDepthValid, gt.
  cbn [min_depth_ max_depth_].
  rewrite !andb_true_iff. intros [[H1 H2] H3].
  split; [split|].
  - by apply (le_lt_trans _ m).
  - by apply (lt_le_trans _ max_z).
  - by apply (le_lt_trans _ min_z).
Qed.

Lemma setDepthRange_widen_witness :
  exists cam1 cam2,
    setDepthRange example_cam one (of_int 10) = Some cam1 /\
    setDepthRange example_cam zero (of_int 20) = Some cam2 /\
    isDepthValid cam1 (vec3 zero zero (of_int 2)) lit_0_5 = true /\
    isDepthValid cam2 (vec3 zero zero (of_int 2)) lit_0_05 = true.
Proof.
  eexists _, _. split; [reflexivity|]. split; [reflexivity|].
  split; [reflexivity|].
  eapply (setDepthRange_widen example_cam one (of_int 10) zero (of_int 20)
           lit_0_5 lit_0_05 _ _ (vec3 zero zero (of_int 2))); reflexivity.
Defined.

(** X13. Widening the distance range keeps every distance-valid point valid,
    and the distance test never looks at the depth range: it gives the same
    answer after any [setDepthRange]. *)
Theorem setDistRange_widen cam (lo hi lo' hi' : double) cam1 cam2 (pc : Vector3d) :
  setDistRange cam lo hi = Some cam1 ->
  setDistRange cam lo' hi' = Some cam2 ->
  le lo' lo = true -> le hi hi' = true ->
  (isDistanceValid cam1 pc = true -> isDistanceValid cam2 pc = true) /\
  (forall a b cam3, setDepthRange cam1 a b = Some cam3 ->
     isDistanceValid cam3 pc = isDistanceValid cam1 pc).
Proof.
  unfold setDistRange.
  destruct (lt lo hi); [|done]. destruct (lt lo' hi'); [|done].
  intros [= <-] [= <-] Hlo Hhi. split.
  - unfold isDistanceValid, gt. cbn [min_dist_ max_dist_].
    rewrite !andb_true_iff. intros [H1 H2]. split.
    + by apply (lt_le_trans _ hi).
    + by apply (le_lt_trans _ lo).
  - intros a b cam3. unfold setDepthRange.
    destruct (lt a b); [|done]. by intros [= <-].
Qed.

Lemma setDistRange_widen_witness :
  exists cam1 cam2,
    setDistRange example_cam one (of_int 10) = Some cam1 /\
    setDistRange example_cam zero (of_int 20) = Some cam2 /\
    isDistanceValid cam1 (vec3 zero zero (of_int 2)) = true /\
    isDistanceValid cam2 (vec3 zero zero (of_int 2)) = true.
Proof.
  eexists _, _. split; [reflexivity|]. split; [reflexivity|].
  split; [reflexivity|].
  eapply (setDistRange_widen example_cam one (of_int 10) zero (of_int 20)
           _ _ (vec3 zero zero (of_int 2))); reflexivity.
Defined.

(** ** The flat index *)


(** X14. On the pixels of the image the flat index is a bijection onto
    [0, w * h): it lies in that range, the pixel is recovered from it as
    (idx mod w, idx / w), and so two pixels with the same index are the same
    pixel.  The image has at most INT_MAX pixels. *)
Theorem pixelCoordToFlatIdx_bijective cam (x y : Z) :
  (w_ cam * h_ cam <= INT_MAX)%Z ->
  (0 <= x < w_ cam)%Z -> (0 <= y < h_ cam)%Z ->
  (0 <= pixelCoordToFlatIdx cam x y < w_ cam * h_ cam)%Z /\
  (pixelCoordToFlatIdx cam x y mod w_ cam = x)%Z /\
  (pixelCoordToFlatIdx cam x y / w_ cam = y)%Z /\
  (forall x' y', (0 <= x' < w_ cam)%Z -> (0 <= y' < h_ cam)%Z ->
     pixelCoordToFlatIdx cam x' y' = pixelCoordToFlatIdx cam x y ->
     x' = x /\ y' = y) /\
  (forall idx, (0 <= idx < w_ cam * h_ cam)%Z ->
     pixelCoordToFlatIdx cam (idx mod w_ cam) (idx / w_ cam) = idx).
Proof.
  intros Hwh Hx Hy.
  rewrite pixelCoordToFlatIdx_in_range by done.
  assert ((y * w_ cam + x) mod w_ cam = x)%Z as Hmod.
  { rewrite Z.add_comm, Z.mod_add by lia. apply Z.mod_small. lia. }
  assert ((y * w_ cam + x) / w_ cam = y)%Z as Hdiv.
  { rewrite Z.add_comm, Z.div_add by lia. rewrite Z.div_small; lia. }
  split; [nia|]. split; [done|]. split; [done|]. split.
  - intros x' y' Hx' Hy'. rewrite pixelCoordToFlatIdx_in_range by done.
    intros E. split.
    + rewrite <- Hmod, <- E. rewrite Z.add_comm, Z.mod_add by lia.
      symmetry. apply Z.mod_small. lia.
    + rewrite <- Hdiv, <- E. rewrite Z.add_comm, Z.div_add by lia.
      rewrite Z.div_small; lia.
  - intros idx Hidx.
    assert (0 <= idx mod w_ cam < w_ cam)%Z by (apply Z.mod_pos_bound; lia).
    assert (0 <= idx / w_ cam < h_ cam)%Z.
    { split; [apply Z.div_pos; lia|]. apply Z.div_lt_upper_bound; lia. }
    rewrite pixelCoordToFlatIdx_in_range by done.
    rewrite (Z.div_mod idx (w_ cam)) at 3 by lia. lia.
Qed.

Lemma pixelCoordToFlatIdx_bijective_witness :
  (0 <= pixelCoordToFlatIdx example_cam 5 7 < w_ example_cam * h_ example_cam)%Z /\
  (pixelCoordToFlatIdx example_cam 5 7 mod w_ example_cam = 5)%Z /\
  (pixelCoordToFlatIdx example_cam 5 7 / w_ example_cam = 7)%Z /\
  (forall x' y', (0 <= x' < w_ example_cam)%Z -> (0 <= y' < h_ example_cam)%Z ->
     pixelCoordToFlatIdx example_cam x' y' = pixelCoordToFlatIdx example_cam 5 7 ->
     x' = 5%Z /\ y' = 7%Z) /\
  (forall idx, (0 <= idx < w_ example_cam * h_ example_cam)%Z ->
     pixelCoordToFlatIdx example_cam (idx mod w_ example_cam) (idx / w_ example_cam)
     = idx).
Proof.
  apply (pixelCoordToFlatIdx_bijective example_cam 5 7).
  - unfold INT_MAX. simpl. lia.
  - simpl. lia.
  - simpl. lia.
Defined.

(** X15. Neither [pixelCoordToFlatIdx] nor [getBearingAtPixel] checks that x
    is a column of the image.  The pixel (x + w, y) has the flat index of
    (x, y + 1); so whenever the cache serves the pixel (x, y + 1) with a
    bearing, [getBearingAtPixel] returns that same bearing for (x + w, y).
    No [int] operation overflows. *)
Theorem getBearingAtPixel_row_aliasing cam (x y : Z) (f : Vector3d) :
  is_int (x + w_ cam) -> is_int (y + 1) ->
  is_int (y * w_ cam) -> is_int ((y + 1) * w_ cam) ->
  is_int (y * w_ cam + (x + w_ cam)) ->
  getBearingAtPixel cam x (y + 1) = Some f ->
  pixelCoordToFlatIdx cam (x + w_ cam) y = ((y + 1) * w_ cam + x)%Z /\
  pixelCoordToFlatIdx cam (x + w_ cam) y = pixelCoordToFlatIdx cam x (y + 1) /\
  getBearingAtPixel cam (x + w_ cam) y = Some f.
Proof.
  intros _ _ H1 H2 H3 Hf.
  assert (pixelCoordToFlatIdx cam (x + w_ cam) y = ((y + 1) * w_ cam + x)%Z) as E1.
  { unfold pixelCoordToFlatIdx. rewrite (wrap_int_id _ H1), (wrap_int_id _ H3). lia. }
  assert (pixelCoordToFlatIdx cam x (y + 1) = ((y + 1) * w_ cam + x)%Z) as E2.
  { unfold pixelCoordToFlatIdx. rewrite (wrap_int_id _ H2).
    apply wrap_int_id. by replace ((y + 1) * w_ cam + x)%Z
      with (y * w_ cam + (x + w_ cam))%Z by lia. }
  split; [done|]. split; [by rewrite E1, E2|].
  rewrite <- Hf. unfold getBearingAtPixel. by rewrite E1, E2.
Qed.

Lemma getBearingAtPixel_row_aliasing_witness :
  exists cam',
    computeBearingVectors small_cam = Some cam' /\
    getBearingAtPixel cam' 0 (1 + 1)
    = Some (backproject3d small_cam (vec2 zero (of_int 2))) /\
    pixelCoordToFlatIdx cam' (0 + w_ cam') 1 = ((1 + 1) * w_ cam' + 0)%Z /\
    pixelCoordToFlatIdx cam' (0 + w_ cam') 1 = pixelCoordToFlatIdx cam' 0 (1 + 1) /\
    getBearingAtPixel cam' (0 + w_ cam') 1
    = Some (backproject3d small_cam (vec2 zero (of_int 2))).
Proof.
  eexists. split; [reflexivity|]. split; [reflexivity|].
  apply (getBearingAtPixel_row_aliasing _ 0 1
           (backproject3d small_cam (vec2 zero (of_int 2)))).
  - by vm_compute.
  - by vm_compute.
  - by vm_compute.
  - by vm_compute.
  - by vm_compute.
  - reflexivity.
Defined.



(** ** Composing the mutators *)

(** X17. The three mutators write disjoint fields, so two different ones
    commute, fatal outcomes included; and a mutator called twice keeps only
    the second call's values (the margins are recomputed from the image size,
    not accumulated). *)
Theorem mutators_commute cam (a b c d r r' : double) :
  (setDepthRange cam a b ≫= (fun cam1 => setDistRange cam1 c d))
  = (setDistRange cam c d ≫= (fun cam1 => setDepthRange cam1 a b)) /\
  (setDepthRange cam a b ≫= (fun cam1 => setMargin cam1 r))
  = (setMargin cam r ≫= (fun cam1 => setDepthRange cam1 a b)) /\
  (setDistRange cam c d ≫= (fun cam1 => setMargin cam1 r))
  = (setMargin cam r ≫= (fun cam1 => setDistRange cam1 c d)) /\
  (setDepthRange cam a b ≫= (fun cam1 => setDepthRange cam1 c d))
  = (if lt a b then setDepthRange cam c d else None) /\
  (setDistRange cam a b ≫= (fun cam1 => setDistRange cam1 c d))
  = (if lt a b then setDistRange cam c d else None) /\
  (setMargin cam r ≫= (fun cam1 => setMargin cam1 r'))
  = (if ge r zero then setMargin cam r' else None).
Proof.
  unfold setDepthRange, setDistRange, setMargin.
  destruct (lt a b), (lt c d), (ge r zero), (ge r' zero); done.
Qed.

(** ** Loosening the thresholds *)




